(** * coda-embeddings: the pack's three formulas, embedded and verified

    The pack (src/pack.ts) exposes three entry points:
    - [FormatEmbedding]   : recover a stored record from its JSON text,
    - [GenerateEmbedding] : call the provider, build a record, stringify it,
    - [CosineSimilarity]  : cosine of the angle between two number arrays.

    JavaScript numbers are IEEE-754 binary64 values.  They are modelled by
    [spec_float] with precision 53 and maximal exponent 1024, and the
    arithmetic of the source ([+], [*], [/], [Math.sqrt], [===]) by the
    corresponding operations of the specification of floating-point
    arithmetic shipped with the prover.  JavaScript strings are sequences of
    UTF-16 code units, modelled as lists of integers.

    [JSON.stringify] and [JSON.parse] belong to the language, not to the
    pack; they are modelled after ECMA-262 (SerializeJSONProperty,
    QuoteJSONString, Number::toString, and the JSON grammar with numeric
    literals rounded to the nearest binary64 value), as far as the values of
    the pack need them.

    The first part of the file holds the definitions, the second part the
    proofs. *)

From Stdlib Require Import String Ascii ZArith List Lia Bool SpecFloat.
Import ListNotations.
Local Open Scope Z_scope.

Set Warnings "-register-all".

(* ================================================================= *)
(** ** Numbers *)

Definition number : Type := spec_float.

Module Num.

Definition prec : Z := 53.
Definition emax : Z := 1024.

Definition add : number -> number -> number := SFadd prec emax.
Definition mul : number -> number -> number := SFmul prec emax.
Definition div : number -> number -> number := SFdiv prec emax.
Definition sqrt : number -> number := SFsqrt prec emax.

(** [x === y] on numbers. *)
Definition strict_eq : number -> number -> bool := SFeqb.
Definition leb : number -> number -> bool := SFleb.

Definition pzero : number := S754_zero false.
Definition nzero : number := S754_zero true.
Definition nan : number := S754_nan.

(** The number denoted by an integer literal. *)
Definition of_Z (z : Z) : number := binary_normalize prec emax z 0 false.

Definition one : number := of_Z 1.

Definition valid (x : number) : bool := valid_binary prec emax x.

Definition is_finite (x : number) : bool :=
  match x with
  | S754_zero _ | S754_finite _ _ _ => true
  | _ => false
  end.

Definition is_zero (x : number) : bool :=
  match x with
  | S754_zero _ => true
  | _ => false
  end.

Definition is_nan (x : number) : bool :=
  match x with
  | S754_nan => true
  | _ => false
  end.

End Num.

(* ================================================================= *)
(** ** Strings and exceptions *)

Definition code_unit := Z.
Definition jsstring := list code_unit.

(** A string literal of the source, as code units. *)
Definition js (s : string) : jsstring :=
  map (fun c => Z.of_N (N_of_ascii c)) (list_ascii_of_string s).

Inductive js_error : Type :=
| Error (message : jsstring)     (* [throw new Error(message)] *)
| TypeError                       (* property access on undefined or null *)
| SyntaxError.                    (* thrown by [JSON.parse] *)

Inductive result (A : Type) : Type :=
| Ok (a : A)
| Throw (e : js_error).

Arguments Ok {A} a.
Arguments Throw {A} e.

Definition bind {A B} (r : result A) (k : A -> result B) : result B :=
  match r with
  | Ok a => k a
  | Throw e => Throw e
  end.

Notation "x <- r ;; k" := (bind r (fun x => k))
  (at level 61, r at next level, right associativity).

(* ================================================================= *)
(** ** CosineSimilarity *)

Record sums : Type := {
  dotProduct : number;
  normA : number;
  normB : number
}.

Definition sums0 : sums :=
  {| dotProduct := Num.pzero; normA := Num.pzero; normB := Num.pzero |}.

(** The body of the [for] loop, run for the indices the two arrays share. *)
Fixpoint accumulate (embeddingA embeddingB : list number) (st : sums) : sums :=
  match embeddingA, embeddingB with
  | x :: restA, y :: restB =>
      accumulate restA restB
        {| dotProduct := Num.add (dotProduct st) (Num.mul x y);
           normA := Num.add (normA st) (Num.mul x x);
           normB := Num.add (normB st) (Num.mul y y) |}
  | _, _ => st
  end.

Definition length_mismatch : jsstring :=
  js "Both embeddings must be of the same length.".

Definition cosineSimilarity (embeddingA embeddingB : list number)
  : result number :=
  if negb (Nat.eqb (length embeddingA) (length embeddingB)) then
    Throw (Error length_mismatch)
  else
    let st := accumulate embeddingA embeddingB sums0 in
    if Num.strict_eq (normA st) Num.pzero || Num.strict_eq (normB st) Num.pzero
    then Ok Num.pzero
    else Ok (Num.div (dotProduct st)
                     (Num.mul (Num.sqrt (normA st)) (Num.sqrt (normB st)))).

(** The squared norm the loop computes for one array, on its own. *)
Fixpoint sum_squares (v : list number) (acc : number) : number :=
  match v with
  | [] => acc
  | x :: rest => sum_squares rest (Num.add acc (Num.mul x x))
  end.

(** [-1 <= x && x <= 1] *)
Definition in_unit_interval (x : number) : bool :=
  Num.leb (Num.of_Z (-1)) x && Num.leb x Num.one.

(* ================================================================= *)
(** ** Decimal digits *)

(** Digits are kept as the integers 0..9, most significant first. *)

Fixpoint digits_acc (fuel : nat) (n : Z) (acc : list Z) : list Z :=
  match fuel with
  | O => n :: acc
  | S f => if n <? 10 then n :: acc
           else digits_acc f (n / 10) (n mod 10 :: acc)
  end.

Definition decimal_digits (n : Z) : list Z :=
  digits_acc (Z.to_nat (Z.log2 n)) n [].

Fixpoint digits_value (acc : Z) (ds : list Z) : Z :=
  match ds with
  | [] => acc
  | d :: rest => digits_value (10 * acc + d) rest
  end.

Definition digit_char (d : Z) : code_unit := 48 + d.
Definition is_digit (c : code_unit) : bool := (48 <=? c) && (c <=? 57).

Definition digit_chars (ds : list Z) : jsstring := map digit_char ds.

Definition zeros (n : Z) : list Z := repeat 0 (Z.to_nat n).

(* ================================================================= *)
(** ** Decimal to binary64 and back *)

Definition number_eqb (x y : number) : bool :=
  match x, y with
  | S754_zero a, S754_zero b => Bool.eqb a b
  | S754_infinity a, S754_infinity b => Bool.eqb a b
  | S754_nan, S754_nan => true
  | S754_finite a m e, S754_finite b m' e' =>
      Bool.eqb a b && Pos.eqb m m' && Z.eqb e e'
  | _, _ => false
  end.

(** The binary64 value nearest to [s * 10^p] (ties to even), for [s >= 0]:
    the rounding applied to the mathematical value of a numeric literal. *)
Definition decimal_round (s p : Z) : number :=
  if 0 <=? p then
    binary_normalize Num.prec Num.emax (s * 10 ^ p) 0 false
  else
    let '(q, e, l) := SFdiv_core_binary Num.prec Num.emax s 0 (10 ^ (- p)) 0 in
    binary_round_aux Num.prec Num.emax false q e l.

(** A decimal [s * 10^p] without trailing zeros in [s]. *)
Fixpoint strip_zeros (fuel : nat) (s p : Z) : Z * Z :=
  match fuel with
  | O => (s, p)
  | S f => if (0 <? s) && (s mod 10 =? 0) then strip_zeros f (s / 10) (p + 1)
           else (s, p)
  end.

Definition normalize_decimal (s p : Z) : Z * Z :=
  strip_zeros (Z.to_nat (Z.log2 s)) s p.

(** The exact decimal expansion [full * 10^p] of the positive number
    [m * 2^e]. *)
Definition exact_decimal (m : positive) (e : Z) : Z * Z :=
  if 0 <=? e then (Zpos m * 2 ^ e, 0) else (Zpos m * 5 ^ (- e), e).

Definition rounds_to (x : number) (d : Z * Z) : bool :=
  (0 <? fst d) && number_eqb (decimal_round (fst d) (snd d)) x.

(** Number::toString, step 5: the digits [s] and the exponent.  For
    k = 1, 2, ... the two k-digit decimals around the exact expansion
    [full * 10^p] (of [K] digits) are tried; the first k for which one of
    them rounds to [x] wins, the nearer of the two if both do (the even one on
    a tie).  When the expansion itself has no more than k digits it is the
    answer. *)
Fixpoint shortest_from (fuel : nat) (k : Z) (x : number) (full p K : Z)
  : Z * Z :=
  match fuel with
  | O => normalize_decimal full p
  | S f =>
      if K <=? k then normalize_decimal full p
      else
        let unit := 10 ^ (K - k) in
        let lo := full / unit in
        let hi := lo + 1 in
        let dlo := normalize_decimal lo (p + (K - k)) in
        let dhi := normalize_decimal hi (p + (K - k)) in
        let r := full mod unit in
        let lo_nearer :=
          (2 * r <? unit) || ((2 * r =? unit) && Z.even lo) in
        match rounds_to x dlo, rounds_to x dhi with
        | true, true => if lo_nearer then dlo else dhi
        | true, false => dlo
        | false, true => dhi
        | false, false => shortest_from f (k + 1) x full p K
        end
  end.

Definition shortest_decimal (m : positive) (e : Z) : Z * Z :=
  let '(full, p) := exact_decimal m e in
  shortest_from 17 1 (S754_finite false m e) full p
                (Z.of_nat (length (decimal_digits full))).

(** Number::toString, steps 6 to 10: the layout of the digits [s] (there are
    [k] of them) for the decimal exponent [n], where the value is
    [s * 10^(n-k)]. *)
Definition layout_decimal (ds : list Z) (n : Z) : jsstring :=
  let k := Z.of_nat (length ds) in
  if (k <=? n) && (n <=? 21) then
    digit_chars ds ++ digit_chars (zeros (n - k))
  else if (0 <? n) && (n <=? 21) then
    digit_chars (firstn (Z.to_nat n) ds) ++ [46]
      ++ digit_chars (skipn (Z.to_nat n) ds)
  else if (-6 <? n) && (n <=? 0) then
    [48; 46] ++ digit_chars (zeros (- n)) ++ digit_chars ds
  else
    let e := n - 1 in
    let sign := if 0 <=? e then 43 else 45 in
    let exponent := [101; sign] ++ digit_chars (decimal_digits (Z.abs e)) in
    match ds with
    | [d] => digit_char d :: exponent
    | d :: rest => digit_char d :: 46 :: digit_chars rest ++ exponent
    | [] => exponent
    end.

(** Number::toString(x), radix 10. *)
Definition NumberToString (x : number) : jsstring :=
  match x with
  | S754_nan => js "NaN"
  | S754_zero _ => js "0"
  | S754_infinity false => js "Infinity"
  | S754_infinity true => js "-Infinity"
  | S754_finite sign m e =>
      let '(s, p) := shortest_decimal m e in
      let ds := decimal_digits s in
      let body := layout_decimal ds (p + Z.of_nat (length ds)) in
      if sign then 45 :: body else body
  end.

(* ================================================================= *)
(** ** Values *)

(** The values that travel through the pack: what a parsed HTTP body or a
    parsed record can be, and [undefined].  The properties of an object are
    kept in creation order, the order in which JSON.stringify writes them
    (an engine lists integer-like keys first; the pack writes none). *)
Inductive jsval : Type :=
| JUndefined
| JNull
| JBool (b : bool)
| JNum (x : number)
| JStr (s : jsstring)
| JArr (elems : list jsval)
| JObj (props : list (jsstring * jsval)).

Definition jsstring_eqb (a b : jsstring) : bool :=
  if list_eq_dec Z.eq_dec a b then true else false.

Fixpoint lookup (key : jsstring) (props : list (jsstring * jsval))
  : option jsval :=
  match props with
  | [] => None
  | (k, v) :: rest => if jsstring_eqb k key then Some v else lookup key rest
  end.

(** CreateDataProperty: an existing key keeps its place and takes the new
    value, a new key goes to the end. *)
Fixpoint set_prop (props : list (jsstring * jsval)) (kv : jsstring * jsval)
  : list (jsstring * jsval) :=
  match props with
  | [] => [kv]
  | (k, v) :: rest =>
      if jsstring_eqb k (fst kv) then (k, snd kv) :: rest
      else (k, v) :: set_prop rest kv
  end.

(** ToBoolean: what [!v] and [v || w] test. *)
Definition truthy (v : jsval) : bool :=
  match v with
  | JUndefined | JNull => false
  | JBool b => b
  | JNum x => negb (Num.is_zero x || Num.is_nan x)
  | JStr s => match s with [] => false | _ => true end
  | JArr _ | JObj _ => true
  end.

(** [v || w] *)
Definition or_else (v w : jsval) : jsval := if truthy v then v else w.

(** ToString: what [String(v)] and [new Error(v)] apply. *)
Fixpoint ToString (v : jsval) : jsstring :=
  match v with
  | JUndefined => js "undefined"
  | JNull => js "null"
  | JBool true => js "true"
  | JBool false => js "false"
  | JNum x => NumberToString x
  | JStr s => s
  | JArr elems =>
      (fix join (l : list jsval) : jsstring :=
         match l with
         | [] => []
         | e :: rest =>
             let piece := match e with
                          | JUndefined | JNull => []
                          | _ => ToString e
                          end in
             match rest with
             | [] => piece
             | _ => piece ++ 44 :: join rest
             end
         end) elems
  | JObj _ => js "[object Object]"
  end.

(** [v.name] for a property name that is not an array index.  None of the
    names the pack reads ([data], [error], [message], [usage], [length],
    [index], [embedding], [model], [prompt_tokens], [total_tokens]) is
    inherited from a prototype, so only own properties answer. *)
Definition get_prop (v : jsval) (name : jsstring) : result jsval :=
  match v with
  | JUndefined | JNull => Throw TypeError
  | JObj props =>
      Ok (match lookup name props with Some w => w | None => JUndefined end)
  | JArr elems =>
      Ok (if jsstring_eqb name (js "length")
          then JNum (Num.of_Z (Z.of_nat (length elems)))
          else JUndefined)
  | JStr s =>
      Ok (if jsstring_eqb name (js "length")
          then JNum (Num.of_Z (Z.of_nat (length s)))
          else JUndefined)
  | JBool _ | JNum _ => Ok JUndefined
  end.

(** [v[0]] *)
Definition get_first (v : jsval) : result jsval :=
  match v with
  | JUndefined | JNull => Throw TypeError
  | JObj props =>
      Ok (match lookup (js "0") props with Some w => w | None => JUndefined end)
  | JArr elems => Ok (match elems with e :: _ => e | [] => JUndefined end)
  | JStr s => Ok (match s with c :: _ => JStr [c] | [] => JUndefined end)
  | JBool _ | JNum _ => Ok JUndefined
  end.

(** [v?.name] *)
Definition get_prop_opt (v : jsval) (name : jsstring) : result jsval :=
  match v with
  | JUndefined | JNull => Ok JUndefined
  | _ => get_prop v name
  end.

(** [v === 0] *)
Definition strict_eq_zero (v : jsval) : bool :=
  match v with
  | JNum x => Num.strict_eq x Num.pzero
  | _ => false
  end.

(* ================================================================= *)
(** ** JSON.stringify *)

Definition is_high_surrogate (c : code_unit) : bool :=
  (55296 <=? c) && (c <=? 56319).
Definition is_low_surrogate (c : code_unit) : bool :=
  (56320 <=? c) && (c <=? 57343).

Definition hex_char (d : Z) : code_unit := if d <? 10 then 48 + d else 87 + d.

(** UnicodeEscape: a backslash, [u] and four lower-case hexadecimal digits. *)
Definition unicode_escape (c : code_unit) : jsstring :=
  [92; 117; hex_char (c / 4096 mod 16); hex_char (c / 256 mod 16);
   hex_char (c / 16 mod 16); hex_char (c mod 16)].

(** QuoteJSONString without the enclosing quotes. *)
Fixpoint quote_chars (s : jsstring) : jsstring :=
  match s with
  | [] => []
  | c :: rest =>
      if c =? 8 then 92 :: 98 :: quote_chars rest
      else if c =? 9 then 92 :: 116 :: quote_chars rest
      else if c =? 10 then 92 :: 110 :: quote_chars rest
      else if c =? 12 then 92 :: 102 :: quote_chars rest
      else if c =? 13 then 92 :: 114 :: quote_chars rest
      else if c =? 34 then 92 :: 34 :: quote_chars rest
      else if c =? 92 then 92 :: 92 :: quote_chars rest
      else if c <? 32 then unicode_escape c ++ quote_chars rest
      else if is_high_surrogate c then
        match rest with
        | d :: rest' =>
            if is_low_surrogate d then c :: d :: quote_chars rest'
            else unicode_escape c ++ quote_chars rest
        | [] => unicode_escape c
        end
      else if is_low_surrogate c then unicode_escape c ++ quote_chars rest
      else c :: quote_chars rest
  end.

Definition QuoteJSONString (s : jsstring) : jsstring :=
  34 :: quote_chars s ++ [34].

Fixpoint join_comma (pieces : list jsstring) : jsstring :=
  match pieces with
  | [] => []
  | [p] => p
  | p :: rest => p ++ 44 :: join_comma rest
  end.

(** SerializeJSONProperty; [None] is [undefined]. *)
Fixpoint SerializeJSONProperty (v : jsval) : option jsstring :=
  match v with
  | JUndefined => None
  | JNull => Some (js "null")
  | JBool true => Some (js "true")
  | JBool false => Some (js "false")
  | JNum x => Some (if Num.is_finite x then NumberToString x else js "null")
  | JStr s => Some (QuoteJSONString s)
  | JArr elems =>
      let pieces :=
        (fix each (l : list jsval) : list jsstring :=
           match l with
           | [] => []
           | e :: rest =>
               match SerializeJSONProperty e with
               | Some p => p
               | None => js "null"
               end :: each rest
           end) elems in
      Some (91 :: join_comma pieces ++ [93])
  | JObj props =>
      let pieces :=
        (fix each (l : list (jsstring * jsval)) : list jsstring :=
           match l with
           | [] => []
           | (k, w) :: rest =>
               match SerializeJSONProperty w with
               | Some p => (QuoteJSONString k ++ 58 :: p) :: each rest
               | None => each rest
               end
           end) props in
      Some (123 :: join_comma pieces ++ [125])
  end.

Definition JSON_stringify (v : jsval) : option jsstring :=
  SerializeJSONProperty v.

(* ================================================================= *)
(** ** JSON.parse *)

Inductive presult (A : Type) : Type :=
| POk (a : A) (rest : jsstring)
| PFail            (* the text is not JSON *)
| PFuel.           (* the recursion bound was reached *)

Arguments POk {A} a rest.
Arguments PFail {A}.
Arguments PFuel {A}.

Definition is_ws (c : code_unit) : bool :=
  (c =? 9) || (c =? 10) || (c =? 13) || (c =? 32).

Fixpoint skip_ws (s : jsstring) : jsstring :=
  match s with
  | c :: rest => if is_ws c then skip_ws rest else s
  | [] => []
  end.

Definition hex_value (c : code_unit) : option Z :=
  if (48 <=? c) && (c <=? 57) then Some (c - 48)
  else if (97 <=? c) && (c <=? 102) then Some (c - 87)
  else if (65 <=? c) && (c <=? 70) then Some (c - 55)
  else None.

Definition hex4 (a b c d : code_unit) : option code_unit :=
  match hex_value a, hex_value b, hex_value c, hex_value d with
  | Some x, Some y, Some z, Some w => Some (((x * 16 + y) * 16 + z) * 16 + w)
  | _, _, _, _ => None
  end.

(** The characters of a string literal after its opening quote, up to and
    including the closing quote. *)
Fixpoint parse_chars (s : jsstring) : option (jsstring * jsstring) :=
  let cons_to c r :=
    match r with
    | Some (str, rest) => Some (c :: str, rest)
    | None => None
    end in
  match s with
  | [] => None
  | c :: rest =>
      if c =? 34 then Some ([], rest)
      else if c =? 92 then
        match rest with
        | e :: rest1 =>
            if e =? 34 then cons_to 34 (parse_chars rest1)
            else if e =? 92 then cons_to 92 (parse_chars rest1)
            else if e =? 47 then cons_to 47 (parse_chars rest1)
            else if e =? 98 then cons_to 8 (parse_chars rest1)
            else if e =? 102 then cons_to 12 (parse_chars rest1)
            else if e =? 110 then cons_to 10 (parse_chars rest1)
            else if e =? 114 then cons_to 13 (parse_chars rest1)
            else if e =? 116 then cons_to 9 (parse_chars rest1)
            else if e =? 117 then
              match rest1 with
              | h1 :: h2 :: h3 :: h4 :: rest2 =>
                  match hex4 h1 h2 h3 h4 with
                  | Some u => cons_to u (parse_chars rest2)
                  | None => None
                  end
              | _ => None
              end
            else None
        | [] => None
        end
      else if c <? 32 then None
      else cons_to c (parse_chars rest)
  end.

(** The longest run of decimal digits at the head of the text. *)
Fixpoint take_digits (s : jsstring) : list Z * jsstring :=
  match s with
  | c :: rest =>
      if is_digit c then
        let '(ds, r) := take_digits rest in (c - 48 :: ds, r)
      else ([], s)
  | [] => ([], [])
  end.

(** The integer part: a single [0], or a digit from 1 to 9 and more digits. *)
Definition parse_int_part (s : jsstring) : option (list Z * jsstring) :=
  match s with
  | c :: rest =>
      if c =? 48 then Some ([0], rest)
      else if is_digit c then Some (take_digits s)
      else None
  | [] => None
  end.

Definition parse_frac_part (s : jsstring) : option (list Z * jsstring) :=
  match s with
  | c :: rest =>
      if c =? 46 then
        match take_digits rest with
        | ([], _) => None
        | (ds, r) => Some (ds, r)
        end
      else Some ([], s)
  | [] => Some ([], [])
  end.

Definition parse_exp_digits (negative : bool) (s : jsstring)
  : option (Z * jsstring) :=
  match take_digits s with
  | ([], _) => None
  | (ds, r) =>
      let v := digits_value 0 ds in
      Some (if negative then - v else v, r)
  end.

Definition parse_exp_part (s : jsstring) : option (Z * jsstring) :=
  match s with
  | c :: rest =>
      if (c =? 101) || (c =? 69) then
        match rest with
        | sg :: rest1 =>
            if sg =? 43 then parse_exp_digits false rest1
            else if sg =? 45 then parse_exp_digits true rest1
            else parse_exp_digits false rest
        | [] => None
        end
      else Some (0, s)
  | [] => Some (0, [])
  end.

(** The value of an unsigned numeric literal with the digits [ds] (integer
    part and fraction together), [fraclen] of them after the point, and the
    exponent [ex]. *)
Definition literal_value (ds : list Z) (fraclen ex : Z) : number :=
  let mv := digits_value 0 ds in
  if mv =? 0 then Num.pzero else decimal_round mv (ex - fraclen).

Definition parse_unsigned (s : jsstring) : option (number * jsstring) :=
  match parse_int_part s with
  | Some (ids, r1) =>
      match parse_frac_part r1 with
      | Some (fds, r2) =>
          match parse_exp_part r2 with
          | Some (ex, r3) =>
              Some (literal_value (ids ++ fds) (Z.of_nat (length fds)) ex, r3)
          | None => None
          end
      | None => None
      end
  | None => None
  end.

Definition parse_number (s : jsstring) : option (number * jsstring) :=
  match s with
  | c :: rest =>
      if c =? 45 then
        match parse_unsigned rest with
        | Some (x, r) => Some (SFopp x, r)
        | None => None
        end
      else parse_unsigned s
  | [] => None
  end.

Fixpoint strip_prefix (word s : jsstring) : option jsstring :=
  match word, s with
  | [], _ => Some s
  | w :: word', c :: rest => if c =? w then strip_prefix word' rest else None
  | _ :: _, [] => None
  end.

Definition parse_literal (word : jsstring) (v : jsval) (s : jsstring)
  : presult jsval :=
  match strip_prefix word s with
  | Some rest => POk v rest
  | None => PFail
  end.

(** JSON value, array elements and object members, by recursive descent.
    [parse_elements] starts at an element and ends after the closing
    bracket; [parse_members] starts at a key and ends after the closing
    brace. *)
Fixpoint parse_value (fuel : nat) (s : jsstring) : presult jsval :=
  match fuel with
  | O => PFuel
  | S f =>
      match skip_ws s with
      | [] => PFail
      | c :: rest =>
          if c =? 123 then
            match skip_ws rest with
            | [] => PFail
            | c' :: rest' =>
                if c' =? 125 then POk (JObj []) rest'
                else
                  match parse_members f (c' :: rest') with
                  | POk members r => POk (JObj (fold_left set_prop members [])) r
                  | PFail => PFail
                  | PFuel => PFuel
                  end
            end
          else if c =? 91 then
            match skip_ws rest with
            | [] => PFail
            | c' :: rest' =>
                if c' =? 93 then POk (JArr []) rest'
                else
                  match parse_elements f (c' :: rest') with
                  | POk elems r => POk (JArr elems) r
                  | PFail => PFail
                  | PFuel => PFuel
                  end
            end
          else if c =? 34 then
            match parse_chars rest with
            | Some (str, r) => POk (JStr str) r
            | None => PFail
            end
          else if c =? 116 then parse_literal (js "true") (JBool true) (c :: rest)
          else if c =? 102 then parse_literal (js "false") (JBool false) (c :: rest)
          else if c =? 110 then parse_literal (js "null") JNull (c :: rest)
          else
            match parse_number (c :: rest) with
            | Some (x, r) => POk (JNum x) r
            | None => PFail
            end
      end
  end

with parse_elements (fuel : nat) (s : jsstring) : presult (list jsval) :=
  match fuel with
  | O => PFuel
  | S f =>
      match parse_value f s with
      | POk v r =>
          match skip_ws r with
          | [] => PFail
          | c :: r' =>
              if c =? 44 then
                match parse_elements f r' with
                | POk vs r'' => POk (v :: vs) r''
                | PFail => PFail
                | PFuel => PFuel
                end
              else if c =? 93 then POk [v] r'
              else PFail
          end
      | PFail => PFail
      | PFuel => PFuel
      end
  end

with parse_members (fuel : nat) (s : jsstring)
  : presult (list (jsstring * jsval)) :=
  match fuel with
  | O => PFuel
  | S f =>
      match skip_ws s with
      | [] => PFail
      | q :: s1 =>
          if q =? 34 then
            match parse_chars s1 with
            | None => PFail
            | Some (key, s2) =>
                match skip_ws s2 with
                | [] => PFail
                | colon :: s3 =>
                    if colon =? 58 then
                      match parse_value f s3 with
                      | POk v r =>
                          match skip_ws r with
                          | [] => PFail
                          | c :: r' =>
                              if c =? 44 then
                                match parse_members f r' with
                                | POk kvs r'' => POk ((key, v) :: kvs) r''
                                | PFail => PFail
                                | PFuel => PFuel
                                end
                              else if c =? 125 then POk [(key, v)] r'
                              else PFail
                          end
                      | PFail => PFail
                      | PFuel => PFuel
                      end
                    else PFail
                end
            end
          else PFail
      end
  end.

(** [JSON.parse(text)]: one value, white space around it, nothing else.  The
    recursion bound is never reached (see [parse_value_fuel]). *)
Definition JSON_parse (text : jsstring) : result jsval :=
  match parse_value (2 * length text + 1) text with
  | POk v rest =>
      match skip_ws rest with
      | [] => Ok v
      | _ :: _ => Throw SyntaxError
      end
  | PFail | PFuel => Throw SyntaxError
  end.

(* ================================================================= *)
(** ** FormatEmbedding *)

Definition fallback_record (formatted : jsstring) : jsval :=
  JObj [ (js "id", JStr []);
         (js "input", JStr []);
         (js "embedding", JArr []);
         (js "formatted", JStr formatted);
         (js "model", JStr []);
         (js "prompt_tokens", JNum Num.pzero);
         (js "total_tokens", JNum Num.pzero) ].

Definition no_data_record : jsval := fallback_record (js "No data").
Definition invalid_record : jsval :=
  fallback_record (js "Invalid embedding record JSON").

(** The [execute] of FormatEmbedding.  The parameter is a string; [None] is
    an absent one. *)
Definition FormatEmbedding_execute (embeddingRecordStr : option jsstring)
  : result jsval :=
  match embeddingRecordStr with
  | None | Some [] => Ok no_data_record
  | Some text =>
      match JSON_parse text with          (* try *)
      | Ok embeddingRecord => Ok embeddingRecord
      | Throw _ => Ok invalid_record      (* catch (e) *)
      end
  end.

(* ================================================================= *)
(** ** generateEmbedding and GenerateEmbedding *)

Record request : Type := {
  req_method : jsstring;
  req_url : jsstring;
  req_headers : list (jsstring * jsstring);
  req_body : option jsstring
}.

Record response : Type := {
  status : Z;
  body : jsval
}.

(** The fetch collaborator: it answers a request or throws. *)
Definition fetcher : Type := request -> result response.

Definition embeddings_request (text model : jsstring) : request :=
  {| req_method := js "POST";
     req_url := js "https://api.openai.com/v1/embeddings";
     req_headers := [ (js "Content-Type", js "application/json") ];
     req_body := JSON_stringify
                   (JObj [ (js "input", JStr text); (js "model", JStr model) ]) |}.

Definition failed_to_generate : jsstring := js "Failed to generate embedding".
Definition no_embedding_returned : jsstring :=
  js "No embedding returned from OpenAI".

Definition generateEmbedding (text model : jsstring) (fetch : fetcher)
  : result jsval :=
  resp <- fetch (embeddings_request text model) ;;
  let data := body resp in
  if negb (status resp =? 200) then
    err <- get_prop data (js "error") ;;
    msg <- get_prop_opt err (js "message") ;;
    Throw (Error (ToString (or_else msg (JStr failed_to_generate))))
  else
    results <- get_prop data (js "data") ;;
    if negb (truthy results) then Throw (Error no_embedding_returned)
    else
      len <- get_prop results (js "length") ;;
      if strict_eq_zero len then Throw (Error no_embedding_returned)
      else
        embeddingObj <- get_first results ;;
        usage <- get_prop data (js "usage") ;;
        prompt <- get_prop_opt usage (js "prompt_tokens") ;;
        let promptTokens := or_else prompt (JNum Num.pzero) in
        total <- get_prop_opt usage (js "total_tokens") ;;
        let totalTokens := or_else total (JNum Num.pzero) in
        let formatted := JStr (js "Embedding Object") in
        index <- get_prop embeddingObj (js "index") ;;
        embedding <- get_prop embeddingObj (js "embedding") ;;
        model_name <- get_prop data (js "model") ;;
        Ok (JObj [ (js "id", JStr (ToString index));
                   (js "input", JStr text);
                   (js "embedding", embedding);
                   (js "formatted", formatted);
                   (js "model", model_name);
                   (js "prompt_tokens", promptTokens);
                   (js "total_tokens", totalTokens) ]).

Definition default_model : jsstring := js "text-embedding-3-small".

(** The [execute] of GenerateEmbedding: [model] is optional. *)
Definition GenerateEmbedding_execute (text : jsstring) (model : option jsstring)
  (fetch : fetcher) : result (option jsstring) :=
  let model := match model with Some m => m | None => default_model end in
  record <- generateEmbedding text model fetch ;;
  Ok (JSON_stringify record).

(* ================================================================= *)
(** ** Embedding records *)

(** A record with its seven attributes, as the schema types them. *)
Record EmbeddingRecord : Type := {
  id : jsstring;
  input : jsstring;
  embedding : list number;
  formatted : jsstring;
  model : jsstring;
  prompt_tokens : number;
  total_tokens : number
}.

Definition record_value (r : EmbeddingRecord) : jsval :=
  JObj [ (js "id", JStr (id r));
         (js "input", JStr (input r));
         (js "embedding", JArr (map JNum (embedding r)));
         (js "formatted", JStr (formatted r));
         (js "model", JStr (model r));
         (js "prompt_tokens", JNum (prompt_tokens r));
         (js "total_tokens", JNum (total_tokens r)) ].

Definition valid_string (s : jsstring) : Prop :=
  Forall (fun c => 0 <= c < 65536) s.

(** A finite binary64 number. *)
Definition finite_number (x : number) : Prop :=
  Num.is_finite x = true /\ Num.valid x = true.

Definition valid_record (r : EmbeddingRecord) : Prop :=
  valid_string (id r) /\ valid_string (input r)
  /\ Forall finite_number (embedding r)
  /\ valid_string (formatted r) /\ valid_string (model r)
  /\ finite_number (prompt_tokens r) /\ finite_number (total_tokens r).

Definition no_negative_zero (r : EmbeddingRecord) : Prop :=
  Forall (fun x => x <> Num.nzero) (embedding r)
  /\ prompt_tokens r <> Num.nzero /\ total_tokens r <> Num.nzero.

(* ================================================================= *)
(** ** Statements about CosineSimilarity *)

(** Every entry is [0] or [-0]. *)
Definition all_zero (v : list number) : Prop :=
  Forall (fun x => Num.is_zero x = true) v.

(** The squared norm the loop computes is zero. *)
Definition squared_norm_is_zero (v : list number) : Prop :=
  Num.strict_eq (sum_squares v Num.pzero) Num.pzero = true.

Definition vec (l : list Z) : list number := map Num.of_Z l.

(** 0.9999999999999998, the number below 1. *)
Definition below_one : number := S754_finite false 9007199254740990 (-53).
(** 1.0000000000000002, the number above 1. *)
Definition above_one : number := S754_finite false 4503599627370497 (-52).

(* ================================================================= *)
(** ** Statements about generateEmbedding *)

(** The value of an own property, [undefined] when there is none. *)
Definition field (name : jsstring) (props : list (jsstring * jsval)) : jsval :=
  match lookup name props with
  | Some w => w
  | None => JUndefined
  end.

(** The record for the result entry [entry] of the body [props], given the
    two usage figures. *)
Definition record_for (text : jsstring) (entry props : list (jsstring * jsval))
  (prompt total : jsval) : jsval :=
  JObj [ (js "id", JStr (ToString (field (js "index") entry)));
         (js "input", JStr text);
         (js "embedding", field (js "embedding") entry);
         (js "formatted", JStr (js "Embedding Object"));
         (js "model", field (js "model") props);
         (js "prompt_tokens", prompt);
         (js "total_tokens", total) ].

(** A usage figure that [figure || 0] leaves as it is. *)
Definition figure_kept (v : jsval) : Prop :=
  truthy v = true \/ v = JNum Num.pzero.

(** The usage figures of a body: those of its usage block, and 0 and 0 when
    there is no usage block. *)
Inductive usage_figures (props : list (jsstring * jsval))
  : jsval -> jsval -> Prop :=
| usage_absent :
    lookup (js "usage") props = None ->
    usage_figures props (JNum Num.pzero) (JNum Num.pzero)
| usage_present : forall usage prompt total,
    lookup (js "usage") props = Some (JObj usage) ->
    lookup (js "prompt_tokens") usage = Some prompt -> figure_kept prompt ->
    lookup (js "total_tokens") usage = Some total -> figure_kept total ->
    usage_figures props prompt total.




(** Sample numbers and the responses of the end-to-end scenarios. *)
Definition tenths (n : Z) : number := decimal_round n (-1).

Definition sample_body : list (jsstring * jsval) :=
  [ (js "data",
      JArr [ JObj [ (js "index", JNum (Num.of_Z 0));
                    (js "embedding",
                      JArr [JNum (tenths 1); JNum (tenths 2); JNum (tenths 3)]) ] ]);
    (js "model", JStr (js "text-embedding-3-small"));
    (js "usage", JObj [ (js "prompt_tokens", JNum (Num.of_Z 2));
                        (js "total_tokens", JNum (Num.of_Z 2)) ]) ].

Definition sample_fetch : fetcher :=
  fun _ => Ok {| status := 200; body := JObj sample_body |}.



(* ================================================================= *)
(** ** Statements about FormatEmbedding *)

(** The text is not well-formed JSON. *)
Definition malformed (text : jsstring) : Prop :=
  forall v, JSON_parse text <> Ok v.

(** A well-formed payload without most of the record attributes: an object
    with the single property [id], the string [7]. *)
Definition partial_record : jsval := JObj [ (js "id", JStr (js "7")) ].
Definition partial_record_text : jsstring :=
  123 :: QuoteJSONString (js "id") ++ 58 :: QuoteJSONString (js "7") ++ [125].

(* ================================================================= *)
(** ** Statements about the round trip *)

Definition is_decimal_digit (d : Z) : Prop := 0 <= d <= 9.

(** The text does not go on with a digit. *)
Definition no_digit_ahead (rest : jsstring) : Prop :=
  match rest with
  | [] => True
  | c :: _ => is_digit c = false
  end.

(** The text is at its end or goes on with a comma, a closing bracket or a
    closing brace: what follows a number inside a serialized record. *)
Definition after_number (rest : jsstring) : Prop :=
  match rest with
  | [] => True
  | c :: _ => c = 44 \/ c = 93 \/ c = 125
  end.

(** What a number is read back as: itself, but [0] for [-0], which
    Number::toString prints as [0]. *)
Definition positive_zero (x : number) : number :=
  match x with
  | S754_zero _ => Num.pzero
  | _ => x
  end.

Definition read_back (r : EmbeddingRecord) : EmbeddingRecord :=
  {| id := id r;
     input := input r;
     embedding := map positive_zero (embedding r);
     formatted := formatted r;
     model := model r;
     prompt_tokens := positive_zero (prompt_tokens r);
     total_tokens := positive_zero (total_tokens r) |}.

(** The strings of the members of an object, as SerializeJSONObject collects
    them. *)
Fixpoint member_texts (props : list (jsstring * jsval)) : list jsstring :=
  match props with
  | [] => []
  | (k, w) :: rest =>
      match SerializeJSONProperty w with
      | Some p => (QuoteJSONString k ++ 58 :: p) :: member_texts rest
      | None => member_texts rest
      end
  end.

(** A member [key:value] followed by [rest]. *)
Definition member (key : string) (value rest : jsstring) : jsstring :=
  QuoteJSONString (js key) ++ 58 :: value ++ rest.

(** The transport string of a record. *)
Definition record_text (r : EmbeddingRecord) : jsstring :=
  123 ::
  member "id" (QuoteJSONString (id r)) (44 ::
  member "input" (QuoteJSONString (input r)) (44 ::
  member "embedding"
    (91 :: join_comma (map NumberToString (embedding r)) ++ [93]) (44 ::
  member "formatted" (QuoteJSONString (formatted r)) (44 ::
  member "model" (QuoteJSONString (model r)) (44 ::
  member "prompt_tokens" (NumberToString (prompt_tokens r)) (44 ::
  member "total_tokens" (NumberToString (total_tokens r)) [125])))))).

(** A valid record with a negative zero in its vector, and the record it is
    read back as. *)
Definition negative_zero_record : EmbeddingRecord :=
  {| id := js "0";
     input := js "hello world";
     embedding := [Num.nzero];
     formatted := js "Embedding Object";
     model := js "text-embedding-3-small";
     prompt_tokens := Num.of_Z 2;
     total_tokens := Num.of_Z 2 |}.

Definition sample_record : EmbeddingRecord :=
  {| id := js "0";
     input := js "hello world";
     embedding := [tenths 1; tenths 2; tenths 3];
     formatted := js "Embedding Object";
     model := js "text-embedding-3-small";
     prompt_tokens := Num.of_Z 2;
     total_tokens := Num.of_Z 2 |}.

(* ================================================================= *)
(** ** Statements about rounding *)

(** [N * 2^E] and [m * 2^e] are the same number. *)
Definition same_binary (N : positive) (E : Z) (m : positive) (e : Z) : Prop :=
  (E <= e /\ Z.pos N = Z.pos m * 2 ^ (e - E))
  \/ (e < E /\ Z.pos N * 2 ^ (E - e) = Z.pos m).

(** The quotient [s / D] is the number [m * 2^e]. *)
Definition same_quotient (s D m : positive) (e : Z) : Prop :=
  (0 <= e /\ Z.pos s = Z.pos m * 2 ^ e * Z.pos D)
  \/ (e < 0 /\ Z.pos s * 2 ^ (- e) = Z.pos m * Z.pos D).

(** The decimal [s * 10^p] is the number [m * 2^e]. *)
Definition same_decimal (s p : Z) (m : positive) (e : Z) : Prop :=
  0 < s
  /\ s * 10 ^ Z.max p 0 * 2 ^ Z.max (- e) 0
     = Z.pos m * 2 ^ Z.max e 0 * 10 ^ Z.max (- p) 0.

(** A decimal that reads back as [x]. *)
Definition reads_as (x : number) (d : Z * Z) : Prop :=
  0 < fst d /\ decimal_round (fst d) (snd d) = x.

(* ################################################################# *)
(** * Further definitions: the rest of the pack *)

(* ================================================================= *)
(** ** getConnectionName *)

(** The request of the authentication check: only a method and a URL. *)
Definition models_request : request :=
  {| req_method := js "GET";
     req_url := js "https://api.openai.com/v1/models";
     req_headers := [];
     req_body := None |}.

Definition connection_name : jsstring := js "OpenAI API Key".
Definition invalid_api_key : jsstring := js "Invalid API key".

Definition getConnectionName (fetch : fetcher) : result jsstring :=
  resp <- fetch models_request ;;
  if status resp =? 200 then Ok connection_name
  else Throw (Error invalid_api_key).

(* ================================================================= *)
(** ** Further statements about CosineSimilarity *)

(** NaN, Infinity or -Infinity. *)
Definition not_finite (x : number) : Prop := Num.is_finite x = false.

(** [sums] with the two norms exchanged. *)
Definition swap_sums (st : sums) : sums :=
  {| dotProduct := dotProduct st; normA := normB st; normB := normA st |}.

(* ================================================================= *)
(** ** Further statements about generateEmbedding *)


(** The object literal that generateEmbedding returns. *)
Definition embedding_object (id_text text : jsstring)
  (embedding model_name prompt total : jsval) : jsval :=
  JObj [ (js "id", JStr id_text);
         (js "input", JStr text);
         (js "embedding", embedding);
         (js "formatted", JStr (js "Embedding Object"));
         (js "model", model_name);
         (js "prompt_tokens", prompt);
         (js "total_tokens", total) ].

Definition unauthorized_fetch : fetcher :=
  fun _ => Ok {| status := 401; body := JNull |}.

(* ================================================================= *)
(** ** Statements about stored objects *)

(** The values whose text the parser reads back in one piece: null,
    booleans, numbers, strings and arrays of numbers. *)
Inductive flat : jsval -> Prop :=
| flat_null : flat JNull
| flat_bool : forall b, flat (JBool b)
| flat_num : forall x, Num.valid x = true -> flat (JNum x)
| flat_str : forall s, valid_string s -> flat (JStr s)
| flat_nums : forall xs,
    Forall (fun x => Num.valid x = true) xs -> flat (JArr (map JNum xs)).

(** What a number is read back as: JSON has no NaN and no infinities, they
    are written as [null]; [-0] is written as [0]. *)
Definition stored_number (x : number) : jsval :=
  if Num.is_finite x then JNum (positive_zero x) else JNull.

(** What a flat value is read back as. *)
Definition stored (v : jsval) : jsval :=
  match v with
  | JNum x => stored_number x
  | JArr elems =>
      JArr (map (fun e => match e with
                          | JNum x => stored_number x
                          | _ => e
                          end) elems)
  | _ => v
  end.

Definition is_undefined (v : jsval) : bool :=
  match v with
  | JUndefined => true
  | _ => false
  end.

(** The properties that are written: those whose value is not undefined. *)
Definition written (props : list (jsstring * jsval))
  : list (jsstring * jsval) :=
  filter (fun kv => negb (is_undefined (snd kv))) props.

(** What the properties of an object are read back as. *)
Definition stored_props (props : list (jsstring * jsval))
  : list (jsstring * jsval) :=
  map (fun kv => (fst kv, stored (snd kv))) (written props).

(** An object that can be stored: its keys are strings, no key is written
    twice, and its values are flat or undefined. *)
Definition storable (props : list (jsstring * jsval)) : Prop :=
  Forall (fun kv => valid_string (fst kv)
                    /\ (snd kv = JUndefined \/ flat (snd kv))) props
  /\ NoDup (map fst (written props)).

(** The text of a number inside JSON. *)
Definition number_text (x : number) : jsstring :=
  if Num.is_finite x then NumberToString x else js "null".

(** The text of a value that is not undefined. *)
Definition value_text (v : jsval) : jsstring :=
  match SerializeJSONProperty v with
  | Some text => text
  | None => []
  end.

Definition member_text (kv : jsstring * jsval) : jsstring :=
  QuoteJSONString (fst kv) ++ 58 :: value_text (snd kv).

(** The number of elements of an array, 0 for other values. *)
Definition width (v : jsval) : nat :=
  match v with
  | JArr elems => length elems
  | _ => 0%nat
  end.

Fixpoint total_width (props : list (jsstring * jsval)) : nat :=
  match props with
  | [] => 0%nat
  | kv :: rest => (width (snd kv) + total_width rest)%nat
  end.

(** An object with an id, a vector that holds NaN and -0, and a model that
    is undefined; and the text JSON.stringify writes for it. *)
Definition odd_object : list (jsstring * jsval) :=
  [ (js "id", JStr (js "7"));
    (js "embedding", JArr (map JNum [Num.nan; Num.nzero; tenths 1]));
    (js "model", JUndefined) ].

(** A provider answer whose result entry has an index and no vector. *)
Definition no_vector_body : list (jsstring * jsval) :=
  [ (js "data", JArr [ JObj [ (js "index", JNum (Num.of_Z 0)) ] ]);
    (js "model", JStr (js "text-embedding-3-small")) ].

Definition no_vector_fetch : fetcher :=
  fun _ => Ok {| status := 200; body := JObj no_vector_body |}.

(* ================================================================= *)
(** ** Further statements about FormatEmbedding *)

(** Only white space: tabs, line feeds, carriage returns and spaces. *)
Definition blank (text : jsstring) : Prop :=
  Forall (fun c => is_ws c = true) text.

(** No [undefined] in the value, at any depth. *)
Fixpoint defined_value (v : jsval) : Prop :=
  match v with
  | JUndefined => False
  | JArr elems =>
      (fix all (l : list jsval) : Prop :=
         match l with
         | [] => True
         | e :: rest => defined_value e /\ all rest
         end) elems
  | JObj props =>
      (fix all (l : list (jsstring * jsval)) : Prop :=
         match l with
         | [] => True
         | (_, w) :: rest => defined_value w /\ all rest
         end) props
  | _ => True
  end.

Definition defined_values (l : list jsval) : Prop :=
  Forall defined_value l.

Definition defined_props (l : list (jsstring * jsval)) : Prop :=
  Forall (fun kv => defined_value (snd kv)) l.
(* ################################################################# *)
(** * Proofs *)

(* ================================================================= *)
(** ** CosineSimilarity *)

Section Cosine.

Lemma accumulate_normA : forall a b st,
    length a = length b ->
    normA (accumulate a b st) = sum_squares a (normA st).
Proof.
  induction a as [|x a IH]; intros [|y b] st Hlen; simpl in *;
    try discriminate; auto.
Qed.

Lemma accumulate_normB : forall a b st,
    length a = length b ->
    normB (accumulate a b st) = sum_squares b (normB st).
Proof.
  induction a as [|x a IH]; intros [|y b] st Hlen; simpl in *;
    try discriminate; auto.
Qed.

Lemma accumulate_self : forall a st,
    dotProduct st = normA st ->
    dotProduct (accumulate a a st) = sum_squares a (normA st).
Proof.
  induction a as [|x a IH]; intros st Hst; simpl; auto.
  rewrite IH; simpl; [reflexivity | rewrite Hst; reflexivity].
Qed.

Lemma sum_squares_zeros : forall v,
    all_zero v -> sum_squares v Num.pzero = Num.pzero.
Proof.
  induction 1 as [|x v Hx _ IH]; simpl; auto.
  destruct x as [s| | |]; try discriminate.
  destruct s; exact IH.
Qed.

Lemma all_zero_squared_norm : forall v,
    all_zero v -> squared_norm_is_zero v.
Proof.
  intros v H. unfold squared_norm_is_zero.
  rewrite (sum_squares_zeros v H). reflexivity.
Qed.

Lemma cosine_same_length : forall a b,
    length a = length b ->
    cosineSimilarity a b =
      let st := accumulate a b sums0 in
      if Num.strict_eq (normA st) Num.pzero || Num.strict_eq (normB st) Num.pzero
      then Ok Num.pzero
      else Ok (Num.div (dotProduct st)
                       (Num.mul (Num.sqrt (normA st)) (Num.sqrt (normB st)))).
Proof.
  intros a b H. unfold cosineSimilarity.
  rewrite H, Nat.eqb_refl. reflexivity.
Qed.

Lemma div_eucl_div_mod : forall a b, Z.div_eucl a b = (a / b, a mod b).
Proof.
  intros a b. unfold Z.div, Z.modulo.
  destruct (Z.div_eucl a b); reflexivity.
Qed.

(** A finite non-zero number divided by itself is exactly 1. *)
Lemma div_self : forall s m e,
    Num.div (S754_finite s m e) (S754_finite s m e) = Num.one.
Proof.
  intros s m e. unfold Num.div, SFdiv, SFdiv_core_binary.
  rewrite xorb_nilpotent.
  replace (Z.min _ _) with (-53).
  2:{ rewrite !Z.sub_diag. reflexivity. }
  replace (e - e - -53) with 53 by lia.
  cbv iota beta.
  rewrite Z.shiftl_mul_pow2 by lia.
  rewrite div_eucl_div_mod, Z.mul_comm, Z.div_mul, Z.mod_mul by lia.
  unfold new_location, new_location_even, new_location_odd.
  destruct (Z.even (Z.pos m)); reflexivity.
Qed.

End Cosine.

(** C5: arrays of different lengths are refused with the length-mismatch
    error; no number is returned for them. *)
Theorem cosine_length_mismatch : forall a b : list number,
    length a <> length b ->
    cosineSimilarity a b = Throw (Error length_mismatch)
    /\ forall x, cosineSimilarity a b <> Ok x.
Proof.
  intros a b H.
  assert (E : cosineSimilarity a b = Throw (Error length_mismatch)).
  { unfold cosineSimilarity.
    destruct (Nat.eqb_spec (length a) (length b)); [contradiction | reflexivity]. }
  split; [exact E | intros x; rewrite E; discriminate].
Qed.

Lemma cosine_length_mismatch_witness :
  cosineSimilarity (vec [1; 2]) (vec [1]) = Throw (Error length_mismatch)
  /\ forall x, cosineSimilarity (vec [1; 2]) (vec [1]) <> Ok x.
Proof.
  apply (cosine_length_mismatch (vec [1; 2]) (vec [1])).
  simpl. lia.
Defined.

(** C6: for arrays of equal length, when one of them is empty or holds only
    zeros, or more generally when the squared norm computed for one of them
    is zero, the result is the number 0: neither NaN nor an error. *)
Theorem cosine_zero_norm : forall a b : list number,
    length a = length b ->
    all_zero a \/ all_zero b
    \/ squared_norm_is_zero a \/ squared_norm_is_zero b ->
    cosineSimilarity a b = Ok Num.pzero.
Proof.
  intros a b Hlen H.
  assert (Hz : squared_norm_is_zero a \/ squared_norm_is_zero b).
  { destruct H as [H | [H | [H | H]]]; auto using all_zero_squared_norm. }
  rewrite (cosine_same_length _ _ Hlen). cbv zeta.
  rewrite (accumulate_normA _ _ _ Hlen), (accumulate_normB _ _ _ Hlen).
  unfold squared_norm_is_zero in Hz. simpl normA. simpl normB.
  destruct Hz as [Hz | Hz]; rewrite Hz;
    [reflexivity | rewrite orb_true_r; reflexivity].
Qed.

Lemma cosine_zero_norm_witness :
  cosineSimilarity (vec [0; 0]) (vec [3; 4]) = Ok Num.pzero.
Proof.
  apply (cosine_zero_norm (vec [0; 0]) (vec [3; 4])).
  - reflexivity.
  - left. repeat constructor.
Defined.

(** C7, as stated, fails: for the array [1,1], which is not the zero vector,
    the result is 0.9999999999999998 and not 1. *)
Lemma cosine_self_not_one :
  cosineSimilarity (vec [1; 1]) (vec [1; 1]) = Ok below_one
  /\ below_one <> Num.one
  /\ ~ (forall a, ~ all_zero a -> cosineSimilarity a a = Ok Num.one).
Proof.
  assert (E : cosineSimilarity (vec [1; 1]) (vec [1; 1]) = Ok below_one)
    by (vm_compute; reflexivity).
  assert (N : below_one <> Num.one) by (vm_compute; discriminate).
  repeat split; auto.
  intros H. specialize (H (vec [1; 1])).
  rewrite E in H.
  assert (Z : ~ all_zero (vec [1; 1])).
  { intros A. inversion A as [|x l Hx Hl]. vm_compute in Hx. discriminate. }
  specialize (H Z). apply N. congruence.
Qed.

(** C7, amended: with [n] the squared norm the loop computes for [a], the
    result for [a] against itself is [n / (sqrt n * sqrt n)] in binary64
    arithmetic (0 when [n] is zero); it is exactly 1 when [n] is finite,
    non-zero and [sqrt n * sqrt n] gives back [n].  For [1,0] against [0,1]
    the result is 0, for [1,1] against itself 0.9999999999999998. *)
Theorem cosine_self : 
  (forall a : list number,
      let n := sum_squares a Num.pzero in
      (exists s m e, n = S754_finite s m e) ->
      Num.mul (Num.sqrt n) (Num.sqrt n) = n ->
      cosineSimilarity a a = Ok Num.one)
  /\ (forall a : list number,
      let n := sum_squares a Num.pzero in
      cosineSimilarity a a =
        Ok (if Num.strict_eq n Num.pzero then Num.pzero
            else Num.div n (Num.mul (Num.sqrt n) (Num.sqrt n))))
  /\ cosineSimilarity (vec [1; 0]) (vec [0; 1]) = Ok Num.pzero
  /\ cosineSimilarity (vec [1; 1]) (vec [1; 1]) = Ok below_one.
Proof.
  assert (G : forall a : list number,
      let n := sum_squares a Num.pzero in
      cosineSimilarity a a =
        Ok (if Num.strict_eq n Num.pzero then Num.pzero
            else Num.div n (Num.mul (Num.sqrt n) (Num.sqrt n)))).
  { intros a n. rewrite (cosine_same_length a a eq_refl). cbv zeta.
    rewrite accumulate_normA, accumulate_normB, accumulate_self by reflexivity.
    simpl normA. simpl normB. fold n.
    rewrite orb_diag. destruct (Num.strict_eq n Num.pzero); reflexivity. }
  split; [| split; [| split]].
  - intros a n [s [m [e Hn]]] Hroot.
    rewrite (G a). fold n. rewrite Hroot, Hn.
    assert (F : Num.strict_eq (S754_finite s m e) Num.pzero = false)
      by (destruct s; reflexivity).
    rewrite F, div_self. reflexivity.
  - exact G.
  - vm_compute; reflexivity.
  - vm_compute; reflexivity.
Qed.

Lemma cosine_self_witness :
  cosineSimilarity (vec [3; 4]) (vec [3; 4]) = Ok Num.one.
Proof.
  apply (proj1 cosine_self (vec [3; 4])).
  - exists false, 7036874417766400%positive, (-48). vm_compute. reflexivity.
  - vm_compute. reflexivity.
Defined.

(** C8, as stated, fails: for [1,1,1] against itself neither squared norm is
    zero and the result is 1.0000000000000002, outside [-1, 1]. *)
Lemma cosine_above_one :
  cosineSimilarity (vec [1; 1; 1]) (vec [1; 1; 1]) = Ok above_one
  /\ in_unit_interval above_one = false
  /\ ~ squared_norm_is_zero (vec [1; 1; 1])
  /\ ~ (forall a b x, length a = length b -> cosineSimilarity a b = Ok x ->
        in_unit_interval x = true).
Proof.
  assert (E : cosineSimilarity (vec [1; 1; 1]) (vec [1; 1; 1]) = Ok above_one)
    by (vm_compute; reflexivity).
  split; [| split; [| split]].
  - exact E.
  - vm_compute; reflexivity.
  - vm_compute; discriminate.
  - intros H. specialize (H _ _ _ eq_refl E). vm_compute in H. discriminate.
Qed.

(** C8, amended: for arrays of equal length the result is always a number,
    never an error: the number 0 when one of the squared norms the loop
    computes is zero, and otherwise the binary64 quotient of the dot product
    by the product of the two square roots (which rounding can take out of
    [-1, 1]). *)
Theorem cosine_returns_number : forall a b : list number,
    length a = length b ->
    exists x : number,
      cosineSimilarity a b = Ok x
      /\ (squared_norm_is_zero a \/ squared_norm_is_zero b -> x = Num.pzero)
      /\ (~ (squared_norm_is_zero a \/ squared_norm_is_zero b) ->
          x = Num.div (dotProduct (accumulate a b sums0))
                (Num.mul (Num.sqrt (sum_squares a Num.pzero))
                         (Num.sqrt (sum_squares b Num.pzero)))).
Proof.
  intros a b Hlen.
  rewrite (cosine_same_length _ _ Hlen). cbv zeta.
  rewrite (accumulate_normA _ _ _ Hlen), (accumulate_normB _ _ _ Hlen).
  simpl normA. simpl normB. unfold squared_norm_is_zero.
  destruct (Num.strict_eq (sum_squares a Num.pzero) Num.pzero) eqn:Ea;
    destruct (Num.strict_eq (sum_squares b Num.pzero) Num.pzero) eqn:Eb;
    simpl; eexists; (split; [reflexivity | split; intros H]);
    try reflexivity; try (exfalso; apply H; auto; fail).
  destruct H; discriminate.
Qed.

Lemma cosine_returns_number_witness :
  exists x : number,
    cosineSimilarity (vec [1; 2]) (vec [2; 1]) = Ok x
    /\ (squared_norm_is_zero (vec [1; 2]) \/ squared_norm_is_zero (vec [2; 1])
        -> x = Num.pzero)
    /\ (~ (squared_norm_is_zero (vec [1; 2]) \/ squared_norm_is_zero (vec [2; 1]))
        -> x = Num.div (dotProduct (accumulate (vec [1; 2]) (vec [2; 1]) sums0))
                 (Num.mul (Num.sqrt (sum_squares (vec [1; 2]) Num.pzero))
                          (Num.sqrt (sum_squares (vec [2; 1]) Num.pzero)))).
Proof.
  apply (cosine_returns_number (vec [1; 2]) (vec [2; 1])).
  reflexivity.
Defined.

(* ================================================================= *)
(** ** Binary64 rounding *)

Section Rounding.

Lemma iter_pos_iter : forall (A : Type) (f : A -> A) (p : positive) (x : A),
    iter_pos f p x = Pos.iter f x p.
Proof.
  intros A f. induction p as [p IH|p IH|]; intros x; simpl.
  - rewrite !IH, <- !Pos.iter_swap. reflexivity.
  - rewrite !IH. reflexivity.
  - reflexivity.
Qed.

Lemma digits2_log2 : forall m : positive,
    Z.pos (digits2_pos m) = Z.log2 (Z.pos m) + 1.
Proof.
  induction m as [m IH|m IH|]; simpl digits2_pos.
  - rewrite Pos2Z.inj_succ, IH.
    change (Z.pos m~1) with (2 * Z.pos m + 1).
    rewrite Z.log2_succ_double by lia. lia.
  - rewrite Pos2Z.inj_succ, IH.
    change (Z.pos m~0) with (2 * Z.pos m).
    rewrite Z.log2_double by lia. lia.
  - reflexivity.
Qed.

Lemma digits2_bounds : forall m : positive,
    2 ^ (Z.pos (digits2_pos m) - 1) <= Z.pos m < 2 ^ Z.pos (digits2_pos m).
Proof.
  intros m. rewrite digits2_log2.
  replace (Z.log2 (Z.pos m) + 1 - 1) with (Z.log2 (Z.pos m)) by lia.
  replace (Z.log2 (Z.pos m) + 1) with (Z.succ (Z.log2 (Z.pos m))) by lia.
  apply Z.log2_spec. lia.
Qed.

(** The number of binary digits is the only [d] with
    [2^(d-1) <= m < 2^d]. *)
Lemma digits2_unique : forall (m : positive) (d : Z),
    2 ^ (d - 1) <= Z.pos m < 2 ^ d -> Z.pos (digits2_pos m) = d.
Proof.
  intros m d H. rewrite digits2_log2.
  assert (0 < d).
  { destruct (Z.ltb_spec 0 d); auto.
    assert (2 ^ d <= 2 ^ 0) by (apply Z.pow_le_mono_r; lia).
    simpl in *. lia. }
  assert (Z.log2 (Z.pos m) = d - 1); [|lia].
  apply Z.log2_unique; [lia|].
  replace (Z.succ (d - 1)) with d by lia. exact H.
Qed.

Lemma digits2_shift : forall (m : positive) (j : Z),
    0 <= j ->
    Zdigits2 (Z.pos m * 2 ^ j) = Z.pos (digits2_pos m) + j.
Proof.
  intros m j Hj.
  assert (P : 0 < 2 ^ j) by (apply Z.pow_pos_nonneg; lia).
  destruct (Z.pos m * 2 ^ j) as [|q|q] eqn:E; try lia.
  unfold Zdigits2. apply digits2_unique. rewrite <- E.
  pose proof (digits2_bounds m) as [L U].
  replace (Z.pos (digits2_pos m) + j - 1) with (Z.pos (digits2_pos m) - 1 + j) by lia.
  assert (0 <= Z.pos (digits2_pos m) - 1) by lia.
  rewrite !Z.pow_add_r by lia. nia.
Qed.

(** One step of [shr] halves a non-negative mantissa. *)
Lemma shr_1_m : forall r, 0 <= shr_m r -> shr_m (shr_1 r) = shr_m r / 2.
Proof.
  intros [m r s] H. simpl in *.
  destruct m as [|[p|p|]|p]; simpl; try lia; try reflexivity.
  - change (Z.pos p~1) with (2 * Z.pos p + 1).
    apply Z.div_unique with 1; lia.
  - change (Z.pos p~0) with (2 * Z.pos p).
    apply Z.div_unique with 0; lia.
Qed.

Lemma shr_iter_m : forall (k : positive) r,
    0 <= shr_m r -> shr_m (Pos.iter shr_1 r k) = shr_m r / 2 ^ Z.pos k.
Proof.
  intros k. induction k as [|k IH] using Pos.peano_ind; intros r H.
  - simpl Pos.iter. rewrite shr_1_m by assumption. reflexivity.
  - rewrite Pos.iter_succ, shr_1_m.
    + rewrite IH by assumption. rewrite Pos2Z.inj_succ, Z.pow_succ_r by lia.
      rewrite Z.div_div by (try apply Z.pow_pos_nonneg; lia).
      f_equal. lia.
    + rewrite IH by assumption. apply Z.div_pos; [assumption|].
      apply Z.pow_pos_nonneg; lia.
Qed.

(** Shifting out zeros only is exact. *)
Lemma shr_1_exact : forall m : Z,
    0 <= m ->
    shr_1 {| shr_m := 2 * m; shr_r := false; shr_s := false |}
    = {| shr_m := m; shr_r := false; shr_s := false |}.
Proof.
  intros [|p|p] H; reflexivity.
Qed.

Lemma shr_iter_exact : forall (k : positive) (m : Z),
    0 <= m ->
    Pos.iter shr_1 {| shr_m := m * 2 ^ Z.pos k; shr_r := false; shr_s := false |} k
    = {| shr_m := m; shr_r := false; shr_s := false |}.
Proof.
  intros k. induction k as [|k IH] using Pos.peano_ind; intros m H.
  - cbn [Pos.iter]. replace (m * 2 ^ 1) with (2 * m) by lia.
    apply shr_1_exact; assumption.
  - rewrite Pos.iter_succ, Pos2Z.inj_succ, Z.pow_succ_r by lia.
    replace (m * (2 * 2 ^ Z.pos k)) with ((2 * m) * 2 ^ Z.pos k) by lia.
    rewrite IH by lia. apply shr_1_exact; assumption.
Qed.

Lemma shr_spec : forall r e n,
    0 <= shr_m r ->
    shr_m (fst (shr r e n)) = shr_m r / 2 ^ Z.max 0 n
    /\ snd (shr r e n) = e + Z.max 0 n.
Proof.
  intros r e [|k|k] H; simpl shr; simpl fst; simpl snd.
  - rewrite Z.div_1_r. lia.
  - rewrite iter_pos_iter, shr_iter_m by assumption.
    rewrite Z.max_r by lia. split; reflexivity.
  - rewrite Z.max_l by lia. rewrite Z.div_1_r. lia.
Qed.

Lemma loc_of_shr_record_of_loc : forall m l,
    loc_of_shr_record (shr_record_of_loc m l) = l.
Proof. intros m [|[| |]]; reflexivity. Qed.

Lemma shr_m_record_of_loc : forall m l, shr_m (shr_record_of_loc m l) = m.
Proof. intros m [|[| |]]; reflexivity. Qed.

Lemma round_nearest_even_bounds : forall m l,
    m <= round_nearest_even m l <= m + 1.
Proof.
  intros m [|[| |]]; simpl; try lia.
  destruct (Z.even m); lia.
Qed.

Lemma Zdigits2_bounds : forall m : Z,
    0 < m -> 2 ^ (Zdigits2 m - 1) <= m < 2 ^ Zdigits2 m.
Proof.
  intros [|p|p] H; try lia. apply digits2_bounds.
Qed.

Lemma Zdigits2_unique : forall m d : Z,
    0 < m -> 2 ^ (d - 1) <= m < 2 ^ d -> Zdigits2 m = d.
Proof.
  intros [|p|p] d H; try lia. apply digits2_unique.
Qed.

Lemma div_pow2_bounds : forall m d k : Z,
    0 <= k < d -> 2 ^ (d - 1) <= m < 2 ^ d ->
    2 ^ (d - k - 1) <= m / 2 ^ k < 2 ^ (d - k).
Proof.
  intros m d k Hk [L U].
  assert (P : 0 < 2 ^ k) by (apply Z.pow_pos_nonneg; lia).
  split.
  - apply Z.div_le_lower_bound; [assumption|].
    rewrite <- Z.pow_add_r by lia.
    replace (k + (d - k - 1)) with (d - 1) by lia. assumption.
  - apply Z.div_lt_upper_bound; [assumption|].
    rewrite <- Z.pow_add_r by lia.
    replace (k + (d - k)) with d by lia. assumption.
Qed.

(** In the normal range a positive mantissa never rounds to zero: the result
    is finite or infinite, with the sign given. *)
Lemma binary_round_aux_normal : forall sx (m : positive) e l,
    -1021 <= Z.pos (digits2_pos m) + e ->
    (exists m' e', binary_round_aux Num.prec Num.emax sx (Z.pos m) e l
                   = S754_finite sx m' e')
    \/ binary_round_aux Num.prec Num.emax sx (Z.pos m) e l = S754_infinity sx.
Proof.
  intros sx m e l Hn.
  unfold binary_round_aux, shr_fexp.
  set (d := Z.pos (digits2_pos m)) in *.
  change (Zdigits2 (Z.pos m)) with d.
  assert (F1 : fexp Num.prec Num.emax (d + e) - e = d - 53).
  { unfold fexp, emin, Num.prec, Num.emax. lia. }
  rewrite F1.
  pose proof (digits2_bounds m) as B. fold d in B.
  pose proof (shr_spec (shr_record_of_loc (Z.pos m) l) e (d - 53)) as S1.
  rewrite shr_m_record_of_loc in S1. specialize (S1 ltac:(lia)).
  destruct (shr (shr_record_of_loc (Z.pos m) l) e (d - 53)) as [r1 e1].
  simpl fst in S1; simpl snd in S1. destruct S1 as [M1 E1].
  set (k := Z.max 0 (d - 53)) in *.
  assert (D1 : 2 ^ (d - k - 1) <= shr_m r1 < 2 ^ (d - k)).
  { rewrite M1. apply div_pow2_bounds; [unfold k; lia | assumption]. }
  set (m2 := round_nearest_even (shr_m r1) (loc_of_shr_record r1)).
  pose proof (round_nearest_even_bounds (shr_m r1) (loc_of_shr_record r1)) as R.
  fold m2 in R.
  assert (P1 : 0 < 2 ^ (d - k - 1)) by (apply Z.pow_pos_nonneg; unfold k; lia).
  assert (D2 : 2 ^ (d - k - 1) <= m2 <= 2 ^ (d - k)) by lia.
  assert (Hd2 : d - k <= Zdigits2 m2 <= d - k + 1).
  { destruct (Z.eq_dec m2 (2 ^ (d - k))) as [Q|Q].
    - rewrite (Zdigits2_unique m2 (d - k + 1)); [lia|lia|].
      replace (d - k + 1 - 1) with (d - k) by lia.
      rewrite Q. split; [lia|].
      apply Z.pow_lt_mono_r; unfold k; lia.
    - rewrite (Zdigits2_unique m2 (d - k)); [lia|lia|]. lia. }
  assert (F2 : fexp Num.prec Num.emax (Zdigits2 m2 + e1) - e1 = Zdigits2 m2 - 53).
  { unfold fexp, emin, Num.prec, Num.emax. unfold k in *. lia. }
  rewrite F2.
  pose proof (shr_spec (shr_record_of_loc m2 loc_Exact) e1 (Zdigits2 m2 - 53)) as S2.
  rewrite shr_m_record_of_loc in S2. specialize (S2 ltac:(lia)).
  destruct (shr (shr_record_of_loc m2 loc_Exact) e1 (Zdigits2 m2 - 53)) as [r2 e2].
  simpl fst in S2; simpl snd in S2. destruct S2 as [M2 E2].
  pose proof (Zdigits2_bounds m2 ltac:(lia)) as B2.
  assert (D3 : 0 < shr_m r2).
  { rewrite M2.
    destruct (Z.max_spec 0 (Zdigits2 m2 - 53)) as [[_ Q]|[_ Q]]; rewrite Q.
    - pose proof (div_pow2_bounds m2 (Zdigits2 m2) (Zdigits2 m2 - 53)
                    ltac:(unfold k in *; lia) B2) as [L _].
      assert (0 < 2 ^ (Zdigits2 m2 - (Zdigits2 m2 - 53) - 1))
        by (apply Z.pow_pos_nonneg; lia).
      lia.
    - rewrite Z.div_1_r. lia. }
  destruct (shr_m r2) as [|q|q]; try lia.
  destruct (e2 <=? Num.emax - Num.prec); [left; eauto | right; reflexivity].
Qed.

Lemma iter_xO_pow2 : forall (m d : positive),
    Z.pos (Pos.iter xO m d) = Z.pos m * 2 ^ Z.pos d.
Proof.
  intros m d. induction d as [|d IH] using Pos.peano_ind.
  - simpl. lia.
  - rewrite Pos.iter_succ, Pos2Z.inj_succ, Z.pow_succ_r by lia.
    change (Z.pos (Pos.iter xO m d)~0) with (2 * Z.pos (Pos.iter xO m d)).
    rewrite IH. lia.
Qed.

Lemma digits2_iter_xO : forall (m d : positive),
    Z.pos (digits2_pos (Pos.iter xO m d)) = Z.pos (digits2_pos m) + Z.pos d.
Proof.
  intros m d.
  pose proof (digits2_shift m (Z.pos d) ltac:(lia)) as H.
  rewrite <- iter_xO_pow2 in H. exact H.
Qed.

(** The number of a positive integer is not zero. *)
Lemma of_Z_pos_not_zero : forall p : positive,
    Num.strict_eq (Num.of_Z (Z.pos p)) Num.pzero = false.
Proof.
  intros p. unfold Num.of_Z, binary_normalize, binary_round.
  assert (H : exists mz ez,
             shl_align p 0 (fexp Num.prec Num.emax (Z.pos (digits2_pos p) + 0))
             = (mz, ez) /\ -1021 <= Z.pos (digits2_pos mz) + ez).
  { unfold shl_align.
    destruct (fexp Num.prec Num.emax (Z.pos (digits2_pos p) + 0) - 0) as [|k|k] eqn:E.
    - exists p, 0. split; [reflexivity | lia].
    - exists p, 0. split; [reflexivity | lia].
    - eexists _, _. split; [reflexivity|].
      rewrite digits2_iter_xO. lia. }
  destruct H as [mz [ez [-> Hn]]].
  destruct (binary_round_aux_normal false mz ez loc_Exact Hn)
    as [[m' [e' ->]] | ->]; reflexivity.
Qed.

Lemma length_not_zero : forall (A : Type) (x : A) (l : list A),
    Num.strict_eq (Num.of_Z (Z.of_nat (length (x :: l)))) Num.pzero = false.
Proof.
  intros A x l. simpl length. rewrite Nat2Z.inj_succ.
  destruct (Z.succ (Z.of_nat (length l))) as [|p|p] eqn:E; try lia.
  apply of_Z_pos_not_zero.
Qed.

End Rounding.

(* ================================================================= *)
(** ** generateEmbedding *)

Section Generate.

Lemma jsstring_eqb_refl : forall s, jsstring_eqb s s = true.
Proof.
  intros s. unfold jsstring_eqb.
  destruct (list_eq_dec Z.eq_dec s s); congruence.
Qed.

Lemma jsstring_eqb_eq : forall a b, jsstring_eqb a b = true <-> a = b.
Proof.
  intros a b. unfold jsstring_eqb.
  destruct (list_eq_dec Z.eq_dec a b); split; congruence.
Qed.

Lemma get_prop_object : forall props name,
    get_prop (JObj props) name = Ok (field name props).
Proof. reflexivity. Qed.

Variables (text model : jsstring) (fetch : fetcher) (resp : response).
Variable props : list (jsstring * jsval).
Hypothesis Hfetch : fetch (embeddings_request text model) = Ok resp.
Hypothesis Hbody : body resp = JObj props.

(** What the function does once a result entry is there: the record, with
    each usage figure read through [figure || 0]. *)
Lemma generateEmbedding_entry : forall entry rest,
    status resp = 200 ->
    lookup (js "data") props = Some (JArr (JObj entry :: rest)) ->
    generateEmbedding text model fetch =
      (prompt <- get_prop_opt (field (js "usage") props) (js "prompt_tokens") ;;
       total <- get_prop_opt (field (js "usage") props) (js "total_tokens") ;;
       Ok (record_for text entry props
             (or_else prompt (JNum Num.pzero))
             (or_else total (JNum Num.pzero)))).
Proof.
  intros entry rest Hst Hdata.
  unfold generateEmbedding. rewrite Hfetch. cbn [bind].
  rewrite Hst, Hbody. change (negb (200 =? 200)) with false. cbv iota.
  rewrite !get_prop_object. cbn [bind].
  assert (F : field (js "data") props = JArr (JObj entry :: rest))
    by (unfold field; rewrite Hdata; reflexivity).
  rewrite F.
  cbn [truthy negb]. cbv iota.
  cbn [get_prop]. rewrite jsstring_eqb_refl. cbn [bind strict_eq_zero].
  rewrite length_not_zero. cbn [get_first bind].
  destruct (get_prop_opt (field (js "usage") props) (js "prompt_tokens"))
    as [prompt|]; [|reflexivity].
  cbn [bind].
  destruct (get_prop_opt (field (js "usage") props) (js "total_tokens"))
    as [total|]; reflexivity.
Qed.


End Generate.







(* ================================================================= *)
(** ** JSON.parse never reaches its recursion bound *)

Ltac break_in H :=
  match type of H with
  | context [if ?b then _ else _] => destruct b eqn:?
  | context [match ?x with _ => _ end] => destruct x eqn:?
  end.

Ltac break_goal :=
  match goal with
  | |- context [if ?b then _ else _] => destruct b eqn:?
  | |- context [match ?x with _ => _ end] => destruct x eqn:?
  end.

Ltac use_take_digits L :=
  repeat match goal with
  | E : take_digits _ = (_, _) |- _ => apply L in E
  | E : (_, _) = take_digits _ |- _ => symmetry in E; apply L in E
  end.

Section ParseFuel.

Lemma skip_ws_length : forall s, (length (skip_ws s) <= length s)%nat.
Proof.
  induction s as [|c s IH]; simpl; [lia|].
  destruct (is_ws c); simpl; lia.
Qed.

Lemma skip_ws_cons : forall s c rest,
    skip_ws s = c :: rest -> (length rest < length s)%nat.
Proof.
  intros s c rest H. pose proof (skip_ws_length s) as L.
  rewrite H in L. simpl in L. lia.
Qed.

Lemma parse_chars_length : forall s str r,
    parse_chars s = Some (str, r) -> (length r < length s)%nat.
Proof.
  intros s. remember (length s) as n eqn:Hn.
  revert s Hn. induction n as [n IH] using lt_wf_ind.
  intros s Hn str r H. destruct s as [|c rest]; [discriminate|].
  simpl in Hn. cbn [parse_chars] in H.
  repeat (break_in H; try discriminate);
    inversion H; subst; simpl in *; try lia;
    match goal with
    | E : parse_chars ?x = Some (_, ?y) |- _ =>
        specialize (IH (length x) ltac:(simpl; lia) x eq_refl _ _ E); lia
    end.
Qed.

Lemma take_digits_length : forall s ds r,
    take_digits s = (ds, r) -> (length r <= length s)%nat.
Proof.
  induction s as [|c s IH]; intros ds r H; simpl in H.
  - inversion H; subst; simpl; lia.
  - destruct (is_digit c).
    + destruct (take_digits s) as [ds' r'] eqn:E.
      inversion H; subst. specialize (IH _ _ eq_refl). simpl; lia.
    + inversion H; subst; simpl; lia.
Qed.

Lemma parse_number_length : forall s x r,
    parse_number s = Some (x, r) -> (length r <= length s)%nat.
Proof.
  assert (U : forall s x r,
             parse_unsigned s = Some (x, r) -> (length r <= length s)%nat).
  { intros s x r H. unfold parse_unsigned in H.
    destruct (parse_int_part s) as [[ids r1]|] eqn:E1; [|discriminate].
    destruct (parse_frac_part r1) as [[fds r2]|] eqn:E2; [|discriminate].
    destruct (parse_exp_part r2) as [[ex r3]|] eqn:E3; [|discriminate].
    inversion H; subst.
    assert (length r1 <= length s)%nat.
    { unfold parse_int_part in E1. destruct s as [|c s']; [discriminate|].
      repeat (break_in E1; try discriminate); injection E1; intros; subst.
      - simpl; lia.
      - assert (T : take_digits (c :: s') = (ids, r1)) by congruence.
        apply take_digits_length in T. assumption. }
    assert (length r2 <= length r1)%nat.
    { unfold parse_frac_part in E2. destruct r1 as [|c s']; [inversion E2; subst; simpl; lia|].
      repeat (break_in E2; try discriminate); injection E2; intros; subst;
        try (simpl; lia).
      use_take_digits take_digits_length. simpl in *; lia. }
    assert (length r <= length r2)%nat.
    { unfold parse_exp_part, parse_exp_digits in E3.
      destruct r2 as [|c s']; [inversion E3; subst; simpl; lia|].
      repeat (break_in E3; try discriminate); injection E3; intros; subst;
        try (simpl; lia);
        use_take_digits take_digits_length; simpl in *; lia. }
    lia. }
  intros s x r H. unfold parse_number in H.
  destruct s as [|c s']; [discriminate|].
  destruct (c =? 45).
  - destruct (parse_unsigned s') as [[y r']|] eqn:E; [|discriminate].
    inversion H; subst. apply U in E. simpl; lia.
  - eapply U; eassumption.
Qed.

Lemma strip_prefix_length : forall word s r,
    strip_prefix word s = Some r -> (length r <= length s)%nat.
Proof.
  induction word as [|w word IH]; intros s r H; simpl in H.
  - inversion H; subst; lia.
  - destruct s as [|c s']; [discriminate|].
    destruct (c =? w); [|discriminate].
    apply IH in H. simpl; lia.
Qed.

Lemma parse_literal_length : forall word v s w r,
    parse_literal word v s = POk w r -> (length r <= length s)%nat.
Proof.
  intros word v s w r H. unfold parse_literal in H.
  destruct (strip_prefix word s) eqn:E; [|discriminate].
  inversion H; subst. eapply strip_prefix_length; eassumption.
Qed.

Ltac length_facts IHv IHe IHm :=
  repeat match goal with
  | E : skip_ws _ = _ :: _ |- _ => apply skip_ws_cons in E
  | E : parse_chars _ = Some _ |- _ => apply parse_chars_length in E
  | E : parse_number _ = Some _ |- _ => apply parse_number_length in E
  | E : parse_literal _ _ _ = POk _ _ |- _ => apply parse_literal_length in E
  | E : parse_value _ _ = POk _ _ |- _ => apply IHv in E
  | E : parse_elements _ _ = POk _ _ |- _ => apply IHe in E
  | E : parse_members _ _ = POk _ _ |- _ => apply IHm in E
  | E : POk _ _ = POk _ _ |- _ => inversion E; subst; clear E
  end.

(** The text left after a value is a suffix of the text given. *)
Lemma parse_rest_length : forall fuel,
    (forall s v r, parse_value fuel s = POk v r -> (length r <= length s)%nat)
    /\ (forall s v r, parse_elements fuel s = POk v r ->
                      (length r <= length s)%nat)
    /\ (forall s v r, parse_members fuel s = POk v r ->
                      (length r <= length s)%nat).
Proof.
  induction fuel as [|fuel [IHv [IHe IHm]]];
    (split; [|split]); intros s v r H; try discriminate;
    cbn [parse_value parse_elements parse_members] in H;
    repeat (break_in H; try discriminate);
    length_facts IHv IHe IHm; simpl in *; lia.
Qed.

Lemma parse_fuel : forall fuel,
    (forall s, (2 * length s + 1 <= fuel)%nat -> parse_value fuel s <> PFuel)
    /\ (forall s, (2 * length s + 2 <= fuel)%nat ->
                  parse_elements fuel s <> PFuel)
    /\ (forall s, (2 * length s + 2 <= fuel)%nat ->
                  parse_members fuel s <> PFuel).
Proof.
  induction fuel as [|fuel [IHv [IHe IHm]]];
    (split; [|split]); intros s Hf; try lia;
    cbn [parse_value parse_elements parse_members]; intros H;
    repeat (break_in H; try discriminate);
    pose proof (parse_rest_length fuel) as [Lv [Le Lm]];
    repeat match goal with
    | E : parse_value _ ?x = PFuel |- _ => apply IHv in E; [contradiction|]
    | E : parse_elements _ ?x = PFuel |- _ => apply IHe in E; [contradiction|]
    | E : parse_members _ ?x = PFuel |- _ => apply IHm in E; [contradiction|]
    end;
    length_facts Lv Le Lm; simpl in *; try lia;
    unfold parse_literal in *; repeat (break_in H; try discriminate).
Qed.

(** With the bound [JSON_parse] gives it, the parser never runs out. *)
Lemma parse_value_fuel : forall text,
    parse_value (2 * length text + 1) text <> PFuel.
Proof.
  intros text. apply (proj1 (parse_fuel (2 * length text + 1))). lia.
Qed.

End ParseFuel.

(* ================================================================= *)
(** ** FormatEmbedding *)

(** C3: FormatEmbedding returns a value for every input and never throws.
    For an absent or empty string it is the record labelled [No data]; for a
    non-empty string that is not well-formed JSON it is the same record
    labelled [Invalid embedding record JSON]. *)
Theorem FormatEmbedding_never_throws :
  (forall input, exists v, FormatEmbedding_execute input = Ok v)
  /\ FormatEmbedding_execute None
     = Ok (JObj [ (js "id", JStr []);
                  (js "input", JStr []);
                  (js "embedding", JArr []);
                  (js "formatted", JStr (js "No data"));
                  (js "model", JStr []);
                  (js "prompt_tokens", JNum Num.pzero);
                  (js "total_tokens", JNum Num.pzero) ])
  /\ FormatEmbedding_execute (Some []) = FormatEmbedding_execute None
  /\ (forall text, text <> [] -> malformed text ->
        FormatEmbedding_execute (Some text)
        = Ok (JObj [ (js "id", JStr []);
                     (js "input", JStr []);
                     (js "embedding", JArr []);
                     (js "formatted", JStr (js "Invalid embedding record JSON"));
                     (js "model", JStr []);
                     (js "prompt_tokens", JNum Num.pzero);
                     (js "total_tokens", JNum Num.pzero) ])).
Proof.
  split; [| split; [| split]].
  - intros [[|c text]|]; cbn [FormatEmbedding_execute]; eauto.
    destruct (JSON_parse (c :: text)); eauto.
  - reflexivity.
  - reflexivity.
  - intros [|c text] Hne Hbad; [congruence|].
    cbn [FormatEmbedding_execute].
    destruct (JSON_parse (c :: text)) as [v|e] eqn:E; [|reflexivity].
    elim (Hbad v E).
Qed.

Lemma FormatEmbedding_never_throws_witness :
  FormatEmbedding_execute (Some (js "{not valid}")) = Ok invalid_record.
Proof.
  apply (proj2 (proj2 (proj2 FormatEmbedding_never_throws)) (js "{not valid}")).
  - discriminate.
  - intros v. vm_compute. discriminate.
Defined.

(** C9: a non-empty string that parses is returned as parsed, whatever its
    shape; nothing checks that the record attributes are there. *)
Theorem FormatEmbedding_pass_through : forall text v,
    text <> [] ->
    JSON_parse text = Ok v ->
    FormatEmbedding_execute (Some text) = Ok v.
Proof.
  intros [|c text] v Hne Hparse; [congruence|].
  cbn [FormatEmbedding_execute]. rewrite Hparse. reflexivity.
Qed.

Lemma FormatEmbedding_pass_through_witness :
  FormatEmbedding_execute (Some partial_record_text) = Ok partial_record.
Proof.
  apply (FormatEmbedding_pass_through partial_record_text partial_record).
  - discriminate.
  - vm_compute. reflexivity.
Defined.

(* ================================================================= *)
(** ** Strings: JSON.parse reads back what JSON.stringify quotes *)

Section Strings.

Lemma hex_value_hex_char : forall d,
    0 <= d < 16 -> hex_value (hex_char d) = Some d.
Proof.
  intros d H. unfold hex_value, hex_char.
  destruct (Z.ltb_spec d 10).
  - replace ((48 <=? 48 + d) && (48 + d <=? 57)) with true
      by (symmetry; apply andb_true_intro; split; apply Z.leb_le; lia).
    f_equal. lia.
  - replace ((48 <=? 87 + d) && (87 + d <=? 57)) with false
      by (symmetry; apply andb_false_intro2; apply Z.leb_gt; lia).
    replace ((97 <=? 87 + d) && (87 + d <=? 102)) with true
      by (symmetry; apply andb_true_intro; split; apply Z.leb_le; lia).
    f_equal. lia.
Qed.

Lemma hex4_unicode_escape : forall c,
    0 <= c < 65536 ->
    hex4 (hex_char (c / 4096 mod 16)) (hex_char (c / 256 mod 16))
         (hex_char (c / 16 mod 16)) (hex_char (c mod 16)) = Some c.
Proof.
  intros c H. unfold hex4.
  rewrite !hex_value_hex_char by (apply Z.mod_pos_bound; lia).
  f_equal.
  pose proof (Z.div_mod c 16 ltac:(lia)).
  pose proof (Z.div_mod (c / 16) 16 ltac:(lia)).
  pose proof (Z.div_mod (c / 16 / 16) 16 ltac:(lia)).
  rewrite !Z.div_div in * by lia.
  change (16 * 16) with 256 in *. change (256 * 16) with 4096 in *.
  assert (c / 4096 mod 16 = c / 4096).
  { apply Z.mod_small. split.
    - apply Z.div_pos; lia.
    - apply Z.div_lt_upper_bound; lia. }
  lia.
Qed.

(** Reading an escape sequence for [c] gives [c] and goes on. *)
Lemma parse_chars_escape : forall c rest,
    0 <= c < 65536 ->
    parse_chars (unicode_escape c ++ rest)
    = match parse_chars rest with
      | Some (str, r) => Some (c :: str, r)
      | None => None
      end.
Proof.
  intros c rest H. unfold unicode_escape.
  cbn [app parse_chars]. change (92 =? 34) with false.
  change (92 =? 92) with true. cbv iota.
  change (117 =? 34) with false. change (117 =? 92) with false.
  change (117 =? 47) with false. change (117 =? 98) with false.
  change (117 =? 102) with false. change (117 =? 110) with false.
  change (117 =? 114) with false. change (117 =? 116) with false.
  change (117 =? 117) with true. cbv iota.
  rewrite hex4_unicode_escape by assumption. reflexivity.
Qed.

Lemma parse_chars_plain : forall c rest,
    c <> 34 -> c <> 92 -> 32 <= c ->
    parse_chars (c :: rest)
    = match parse_chars rest with
      | Some (str, r) => Some (c :: str, r)
      | None => None
      end.
Proof.
  intros c rest H1 H2 H3. cbn [parse_chars].
  destruct (Z.eqb_spec c 34); [contradiction|].
  destruct (Z.eqb_spec c 92); [contradiction|].
  destruct (Z.ltb_spec c 32); [lia|]. reflexivity.
Qed.

Lemma parse_chars_quote : forall s rest,
    valid_string s ->
    parse_chars (quote_chars s ++ 34 :: rest) = Some (s, rest).
Proof.
  intros s. remember (length s) as n eqn:Hn.
  revert s Hn. induction n as [n IH] using lt_wf_ind.
  intros s Hn rest Hv. destruct s as [|c s].
  - reflexivity.
  - inversion Hv as [|c' s' Hc Hs]; subst c' s'.
    assert (IHs : forall r, parse_chars (quote_chars s ++ 34 :: r) = Some (s, r)).
    { intros r. apply (IH (length s)); [simpl in Hn; lia | reflexivity | assumption]. }
    cbn [quote_chars].
    repeat match goal with
    | |- context [if ?x =? ?k then _ else _] =>
        destruct (Z.eqb_spec x k);
        [subst; cbn [app parse_chars]; simpl Z.eqb; cbv iota;
         rewrite IHs; reflexivity|]
    end.
    destruct (Z.ltb_spec c 32).
    { rewrite <- app_assoc, parse_chars_escape, IHs by assumption. reflexivity. }
    destruct (is_high_surrogate c) eqn:Hh.
    { destruct s as [|d s2].
      - rewrite parse_chars_escape by assumption. reflexivity.
      - destruct (is_low_surrogate d) eqn:Hl.
        + inversion Hs as [|d' s2' Hd Hs2]; subst d' s2'.
          unfold is_high_surrogate in Hh. unfold is_low_surrogate in Hl.
          cbn [app]. rewrite !parse_chars_plain by lia.
          rewrite (IH (length s2)); [reflexivity | simpl in Hn; lia | reflexivity | assumption].
        + rewrite <- app_assoc, parse_chars_escape, IHs by assumption.
          reflexivity. }
    destruct (is_low_surrogate c) eqn:Hl.
    { rewrite <- app_assoc, parse_chars_escape, IHs by assumption. reflexivity. }
    cbn [app]. rewrite parse_chars_plain, IHs by lia. reflexivity.
Qed.

End Strings.

(* ================================================================= *)
(** ** Decimal digits *)

Section Digits.

Lemma digits_value_app : forall l1 l2 a,
    digits_value a (l1 ++ l2) = digits_value (digits_value a l1) l2.
Proof.
  induction l1 as [|d l1 IH]; intros l2 a; simpl; auto.
Qed.

Lemma digits_value_shift : forall l a,
    digits_value a l = a * 10 ^ Z.of_nat (length l) + digits_value 0 l.
Proof.
  induction l as [|d l IH]; intros a.
  - simpl. lia.
  - cbn [digits_value length]. rewrite IH, (IH (10 * 0 + d)).
    rewrite Nat2Z.inj_succ, Z.pow_succ_r by lia. lia.
Qed.

Lemma digits_value_zeros : forall n a,
    0 <= n -> digits_value a (zeros n) = a * 10 ^ n.
Proof.
  intros n a Hn. unfold zeros.
  rewrite <- (Z2Nat.id n) at 2 by assumption.
  generalize (Z.to_nat n) as k. intros k. revert a.
  induction k as [|k IH]; intros a.
  - simpl. lia.
  - cbn [repeat digits_value]. rewrite IH, Nat2Z.inj_succ, Z.pow_succ_r by lia.
    lia.
Qed.

Lemma digits_acc_app : forall fuel n acc,
    digits_acc fuel n acc = digits_acc fuel n [] ++ acc.
Proof.
  induction fuel as [|f IH]; intros n acc; cbn [digits_acc].
  - reflexivity.
  - destruct (n <? 10); [reflexivity|].
    rewrite IH, (IH _ [_]), <- app_assoc. reflexivity.
Qed.

Lemma digits_acc_spec : forall fuel n,
    0 <= n < 10 ^ Z.of_nat (S fuel) ->
    digits_value 0 (digits_acc fuel n []) = n
    /\ Forall is_decimal_digit (digits_acc fuel n [])
    /\ (0 < n -> exists d ds, digits_acc fuel n [] = d :: ds /\ 1 <= d <= 9).
Proof.
  induction fuel as [|f IH]; intros n Hn.
  - cbn [digits_acc]. change (10 ^ Z.of_nat 1) with 10 in Hn.
    split; [simpl; lia | split].
    + repeat constructor; unfold is_decimal_digit; lia.
    + intros Hp. exists n, []. split; [reflexivity | lia].
  - cbn [digits_acc]. destruct (Z.ltb_spec n 10) as [Hlt|Hge].
    + split; [simpl; lia | split].
      * repeat constructor; unfold is_decimal_digit; lia.
      * intros Hp. exists n, []. split; [reflexivity | lia].
    + rewrite digits_acc_app.
      rewrite Nat2Z.inj_succ, Z.pow_succ_r in Hn by lia.
      assert (Hq : 0 <= n / 10 < 10 ^ Z.of_nat (S f)).
      { split; [apply Z.div_pos; lia|].
        apply Z.div_lt_upper_bound; lia. }
      destruct (IH (n / 10) Hq) as [V [D Hd]].
      pose proof (Z.mod_pos_bound n 10 ltac:(lia)) as Hm.
      split; [| split].
      * rewrite digits_value_app, V. cbn [digits_value].
        pose proof (Z.div_mod n 10 ltac:(lia)). lia.
      * apply Forall_app. split; [assumption|].
        repeat constructor; unfold is_decimal_digit; lia.
      * intros _.
        assert (0 < n / 10) by (apply Z.div_str_pos; lia).
        destruct (Hd ltac:(assumption)) as [d [ds [E B]]].
        exists d, (ds ++ [n mod 10]). rewrite E. split; [reflexivity | lia].
Qed.

Lemma decimal_digits_spec : forall n,
    0 <= n ->
    digits_value 0 (decimal_digits n) = n
    /\ Forall is_decimal_digit (decimal_digits n)
    /\ (0 < n -> exists d ds, decimal_digits n = d :: ds /\ 1 <= d <= 9).
Proof.
  intros n Hn. apply digits_acc_spec. split; [assumption|].
  destruct (Z.eq_dec n 0) as [->|Hz]; [simpl; lia|].
  rewrite Nat2Z.inj_succ, Z2Nat.id by apply Z.log2_nonneg.
  pose proof (Z.log2_spec n ltac:(lia)) as [_ U].
  eapply Z.lt_le_trans; [exact U|].
  apply Z.pow_le_mono_l. lia.
Qed.

Lemma is_digit_digit_char : forall d,
    is_decimal_digit d -> is_digit (digit_char d) = true.
Proof.
  intros d H. unfold is_decimal_digit in H. unfold is_digit, digit_char.
  apply andb_true_intro; split; apply Z.leb_le; lia.
Qed.

Lemma take_digits_chars : forall ds rest,
    Forall is_decimal_digit ds -> no_digit_ahead rest ->
    take_digits (digit_chars ds ++ rest) = (ds, rest).
Proof.
  intros ds rest H Hr. induction H as [|d ds Hd _ IH].
  - destruct rest as [|c rest]; [reflexivity|].
    simpl in *. rewrite Hr. reflexivity.
  - cbn [digit_chars map app take_digits].
    rewrite is_digit_digit_char by assumption.
    fold (digit_chars ds). rewrite IH.
    unfold digit_char. f_equal. f_equal. lia.
Qed.

Lemma zeros_digits : forall n, Forall is_decimal_digit (zeros n).
Proof.
  intros n. unfold zeros. induction (Z.to_nat n); simpl; constructor; auto.
  unfold is_decimal_digit; lia.
Qed.

Lemma zeros_length : forall n, 0 <= n -> Z.of_nat (length (zeros n)) = n.
Proof.
  intros n H. unfold zeros. rewrite repeat_length, Z2Nat.id; auto.
Qed.

End Digits.

(* ================================================================= *)
(** ** Numbers: the literal that Number::toString lays out is read back *)

Section Layout.

Lemma after_number_no_digit : forall rest,
    after_number rest -> no_digit_ahead rest.
Proof.
  intros [|c rest] H; simpl in *; auto.
  destruct H as [-> | [-> | ->]]; reflexivity.
Qed.

Lemma parse_frac_none : forall rest,
    after_number rest -> parse_frac_part rest = Some ([], rest).
Proof.
  intros [|c rest] H; simpl in *; auto.
  destruct H as [-> | [-> | ->]]; reflexivity.
Qed.

Lemma parse_exp_none : forall rest,
    after_number rest -> parse_exp_part rest = Some (0, rest).
Proof.
  intros [|c rest] H; simpl in *; auto.
  destruct H as [-> | [-> | ->]]; reflexivity.
Qed.

Lemma parse_int_digits : forall d ds r,
    1 <= d <= 9 -> Forall is_decimal_digit ds -> no_digit_ahead r ->
    parse_int_part (digit_chars (d :: ds) ++ r) = Some (d :: ds, r).
Proof.
  intros d ds r Hd Hds Hr.
  assert (Hall : Forall is_decimal_digit (d :: ds))
    by (constructor; [unfold is_decimal_digit; lia | assumption]).
  rewrite <- (take_digits_chars (d :: ds) r Hall Hr).
  cbn [digit_chars map app parse_int_part].
  unfold digit_char at 1.
  destruct (Z.eqb_spec (48 + d) 48); [lia|].
  fold (digit_char d).
  rewrite is_digit_digit_char by (unfold is_decimal_digit; lia).
  reflexivity.
Qed.

Lemma parse_frac_digits : forall l r,
    l <> [] -> Forall is_decimal_digit l -> no_digit_ahead r ->
    parse_frac_part (46 :: digit_chars l ++ r) = Some (l, r).
Proof.
  intros l r Hl Hds Hr. cbn [parse_frac_part]. change (46 =? 46) with true.
  cbv iota. rewrite take_digits_chars by assumption.
  destruct l; [congruence | reflexivity].
Qed.

Lemma decimal_digits_nonempty : forall n,
    0 <= n -> exists d ds, decimal_digits n = d :: ds.
Proof.
  intros n Hn. destruct (Z.eq_dec n 0) as [->|Hz].
  - exists 0, []. reflexivity.
  - destruct (decimal_digits_spec n Hn) as [_ [_ H]].
    destruct (H ltac:(lia)) as [d [ds [E _]]]. eauto.
Qed.

Lemma parse_exp_digits_chars : forall neg v rest,
    0 <= v -> no_digit_ahead rest ->
    parse_exp_digits neg (digit_chars (decimal_digits v) ++ rest)
    = Some (if neg then - v else v, rest).
Proof.
  intros neg v rest Hv Hr. unfold parse_exp_digits.
  destruct (decimal_digits_spec v Hv) as [V [D _]].
  rewrite take_digits_chars by assumption.
  destruct (decimal_digits_nonempty v Hv) as [d [ds E]].
  rewrite E in *. rewrite V. reflexivity.
Qed.

Lemma parse_exp_some : forall e rest,
    after_number rest ->
    parse_exp_part (101 :: (if 0 <=? e then 43 else 45)
                        :: digit_chars (decimal_digits (Z.abs e)) ++ rest)
    = Some (e, rest).
Proof.
  intros e rest Hr. cbn [parse_exp_part].
  change ((101 =? 101) || (101 =? 69)) with true. cbv iota.
  pose proof (after_number_no_digit rest Hr) as Hn.
  destruct (Z.leb_spec 0 e).
  - change (43 =? 43) with true. cbv iota.
    rewrite parse_exp_digits_chars by (try lia; assumption). f_equal. f_equal. lia.
  - change (45 =? 43) with false. change (45 =? 45) with true. cbv iota.
    rewrite parse_exp_digits_chars by (try lia; assumption). f_equal. f_equal. lia.
Qed.

Lemma digit_chars_app : forall a b,
    digit_chars (a ++ b) = digit_chars a ++ digit_chars b.
Proof. intros a b. apply map_app. Qed.

(** The literal laid out for the digits of [s] and the exponent [n] denotes
    [s * 10^(n-k)], where [k] is the number of digits. *)
Lemma parse_unsigned_layout : forall s n rest,
    0 < s -> after_number rest ->
    parse_unsigned (layout_decimal (decimal_digits s) n ++ rest)
    = Some (decimal_round s (n - Z.of_nat (length (decimal_digits s))), rest).
Proof.
  intros s n rest Hs Hr.
  destruct (decimal_digits_spec s ltac:(lia)) as [V [D H1]].
  destruct (H1 Hs) as [d [ds [E Hd]]]. clear H1.
  pose proof (after_number_no_digit rest Hr) as Hn.
  set (k := Z.of_nat (length (decimal_digits s))).
  assert (Hk : 0 < k) by (unfold k; rewrite E; simpl; lia).
  assert (Dds : Forall is_decimal_digit ds)
    by (rewrite E in D; inversion D; assumption).
  assert (Zs : (s =? 0) = false) by (apply Z.eqb_neq; lia).
  unfold layout_decimal. fold k.
  destruct ((k <=? n) && (n <=? 21)) eqn:C1.
  { (* digits and zeros *)
    apply andb_prop in C1. destruct C1 as [C1 _]. apply Z.leb_le in C1.
    unfold parse_unsigned.
    rewrite <- app_assoc, app_assoc, <- digit_chars_app, E.
    cbn [app]. rewrite parse_int_digits; auto.
    2:{ apply Forall_app; split; [assumption | apply zeros_digits]. }
    rewrite parse_frac_none, parse_exp_none by assumption.
    f_equal. f_equal. unfold literal_value.
    rewrite app_nil_r. change (d :: ds ++ zeros (n - k)) with ((d :: ds) ++ zeros (n - k)).
    rewrite <- E, digits_value_app, V, digits_value_zeros by lia.
    assert (P : 0 < 10 ^ (n - k)) by (apply Z.pow_pos_nonneg; lia).
    destruct (Z.eqb_spec (s * 10 ^ (n - k)) 0); [nia|].
    unfold decimal_round. cbn [length Z.of_nat]. change (0 - 0) with 0.
    change (0 <=? 0) with true. cbv iota.
    destruct (Z.leb_spec 0 (n - k)); [|lia].
    change (10 ^ 0) with 1. rewrite Z.mul_1_r. reflexivity. }
  destruct ((0 <? n) && (n <=? 21)) eqn:C2.
  { (* a point inside the digits *)
    apply andb_prop in C2. destruct C2 as [C2 C3].
    apply Z.ltb_lt in C2. apply Z.leb_le in C3.
    assert (C1' : n < k).
    { apply andb_false_iff in C1. destruct C1 as [C1|C1];
        [apply Z.leb_gt in C1 | apply Z.leb_gt in C1]; lia. }
    set (a := firstn (Z.to_nat n) (decimal_digits s)).
    set (b := skipn (Z.to_nat n) (decimal_digits s)).
    assert (Eab : a ++ b = decimal_digits s) by apply firstn_skipn.
    assert (Lb : Z.of_nat (length b) = k - n).
    { unfold b, k. rewrite length_skipn. lia. }
    assert (Ea : exists a', a = d :: a').
    { unfold a. rewrite E. destruct (Z.to_nat n) eqn:En; [lia|].
      simpl. eauto. }
    destruct Ea as [a' Ea].
    assert (Dab : Forall is_decimal_digit (a ++ b)) by (rewrite Eab; assumption).
    apply Forall_app in Dab. destruct Dab as [Da Db].
    assert (Nb : b <> []) by (intros Q; rewrite Q in Lb; simpl in Lb; lia).
    unfold parse_unsigned.
    rewrite <- !app_assoc. cbn [app]. rewrite Ea.
    rewrite parse_int_digits; auto.
    2:{ rewrite Ea in Da. inversion Da; assumption. }
    2:{ reflexivity. }
    rewrite parse_frac_digits, parse_exp_none by assumption.
    f_equal. f_equal. unfold literal_value.
    rewrite <- Ea, Eab, V, Zs, Lb. f_equal. lia. }
  destruct ((-6 <? n) && (n <=? 0)) eqn:C3.
  { (* leading zeros *)
    apply andb_prop in C3. destruct C3 as [_ C3]. apply Z.leb_le in C3.
    unfold parse_unsigned.
    cbn [app parse_int_part]. change (48 =? 48) with true. cbv iota.
    rewrite <- app_assoc, app_assoc, <- digit_chars_app.
    rewrite parse_frac_digits; auto.
    2:{ rewrite E. destruct (zeros (- n)); discriminate. }
    2:{ apply Forall_app; split; [apply zeros_digits | assumption]. }
    rewrite parse_exp_none by assumption.
    f_equal. f_equal. unfold literal_value.
    cbn [app digits_value]. change (10 * 0 + 0) with 0.
    rewrite digits_value_app, digits_value_zeros by lia.
    change (0 * 10 ^ (- n)) with 0. rewrite V, Zs.
    rewrite length_app, Nat2Z.inj_add, zeros_length by lia.
    fold k. f_equal. lia. }
  (* exponent notation *)
  rewrite E. destruct ds as [|d2 ds'].
  - unfold parse_unsigned.
    cbn [app]. change (digit_char d :: ?x) with (digit_chars [d] ++ x).
    rewrite parse_int_digits; auto; [|reflexivity].
    cbn [parse_frac_part]. change (101 =? 46) with false. cbv iota.
    rewrite parse_exp_some by assumption.
    f_equal. f_equal. unfold literal_value.
    rewrite app_nil_r, <- E, V, Zs. f_equal. unfold k. rewrite E. simpl. lia.
  - unfold parse_unsigned.
    change (digit_char d :: 46 :: ?x) with (digit_chars [d] ++ 46 :: x).
    rewrite <- !app_assoc.
    rewrite parse_int_digits; auto; [|reflexivity].
    cbn [app]. rewrite <- app_assoc. cbn [app].
    rewrite parse_frac_digits; auto; [|discriminate|reflexivity].
    rewrite parse_exp_some by assumption.
    f_equal. f_equal. unfold literal_value.
    change ([d] ++ d2 :: ds') with (d :: d2 :: ds').
    rewrite <- E, V, Zs. f_equal. unfold k. rewrite E.
    cbn [length]. lia.
Qed.

End Layout.

(* ================================================================= *)
(** ** Rounding a decimal that is a binary64 number gives that number *)

Section Exact.

Lemma bounded_canonical : forall m e,
    bounded Num.prec Num.emax m e = true ->
    fexp Num.prec Num.emax (Z.pos (digits2_pos m) + e) = e
    /\ e <= Num.emax - Num.prec.
Proof.
  intros m e H. unfold bounded, canonical_mantissa in H.
  apply andb_prop in H. destruct H as [H1 H2].
  apply Z.eqb_eq in H1. apply Z.leb_le in H2. auto.
Qed.

Lemma binary_round_aux_exact : forall m e j,
    bounded Num.prec Num.emax m e = true -> 0 <= j ->
    binary_round_aux Num.prec Num.emax false (Z.pos m * 2 ^ j) (e - j) loc_Exact
    = S754_finite false m e.
Proof.
  intros m e j Hb Hj. destruct (bounded_canonical m e Hb) as [Hc He].
  unfold binary_round_aux, shr_fexp.
  rewrite digits2_shift by assumption.
  replace (Z.pos (digits2_pos m) + j + (e - j)) with (Z.pos (digits2_pos m) + e) by lia.
  rewrite Hc. replace (e - (e - j)) with j by lia.
  assert (S1 : shr (shr_record_of_loc (Z.pos m * 2 ^ j) loc_Exact) (e - j) j
               = ({| shr_m := Z.pos m; shr_r := false; shr_s := false |}, e)).
  { destruct j as [|p|p]; try lia.
    - change (2 ^ 0) with 1. rewrite Z.mul_1_r, Z.sub_0_r. reflexivity.
    - cbn [shr shr_record_of_loc]. rewrite iter_pos_iter, shr_iter_exact by lia.
      f_equal. lia. }
  rewrite S1. cbn [shr_m loc_of_shr_record round_nearest_even Zdigits2].
  rewrite Hc, Z.sub_diag. cbn [shr shr_record_of_loc shr_m].
  destruct (Z.leb_spec e (Num.emax - Num.prec)); [reflexivity | lia].
Qed.

Lemma binary_round_exact : forall N E m e,
    bounded Num.prec Num.emax m e = true ->
    same_binary N E m e ->
    binary_round Num.prec Num.emax false N E = S754_finite false m e.
Proof.
  intros N E m e Hb Hs. destruct (bounded_canonical m e Hb) as [Hc He].
  unfold binary_round.
  assert (Hd : Z.pos (digits2_pos N) + E = Z.pos (digits2_pos m) + e).
  { destruct Hs as [[H1 H2] | [H1 H2]].
    - pose proof (digits2_shift m (e - E) ltac:(lia)) as Q.
      rewrite <- H2 in Q. simpl Zdigits2 in Q. lia.
    - pose proof (digits2_shift N (E - e) ltac:(lia)) as Q.
      rewrite H2 in Q. simpl Zdigits2 in Q. lia. }
  rewrite Hd, Hc. unfold shl_align.
  destruct Hs as [[H1 H2] | [H1 H2]].
  - destruct (e - E) as [|p|p] eqn:Q; try lia.
    + rewrite H2. replace E with (e - 0) by lia.
      apply binary_round_aux_exact; [assumption | lia].
    + rewrite H2. replace E with (e - Z.pos p) by lia.
      apply binary_round_aux_exact; [assumption | lia].
  - destruct (e - E) as [|p|p] eqn:Q; try lia.
    assert (Pos.iter xO N p = m).
    { apply Pos2Z.inj. rewrite iter_xO_pow2, <- H2. f_equal. f_equal. lia. }
    subst m.
    pose proof (binary_round_aux_exact (Pos.iter xO N p) e 0 Hb ltac:(lia)) as R.
    rewrite Z.mul_1_r, Z.sub_0_r in R. exact R.
Qed.

Lemma fexp_monotone : forall a b,
    a <= b -> fexp Num.prec Num.emax a <= fexp Num.prec Num.emax b.
Proof. intros a b H. unfold fexp. lia. Qed.

Lemma pow2_lt_exponent : forall a b, 0 <= a -> 2 ^ a < 2 ^ b -> a < b.
Proof.
  intros a b Ha H. destruct (Z.lt_ge_cases a b) as [|G]; [assumption|].
  destruct (Z.lt_ge_cases b 0) as [N|N].
  - rewrite (Z.pow_neg_r 2 b N) in H.
    pose proof (Z.pow_pos_nonneg 2 a ltac:(lia) Ha). lia.
  - pose proof (Z.pow_le_mono_r 2 b a ltac:(lia) G). lia.
Qed.

Lemma div_round_exact : forall s D m e,
    bounded Num.prec Num.emax m e = true ->
    same_quotient s D m e ->
    (let '(q, e', l) :=
       SFdiv_core_binary Num.prec Num.emax (Z.pos s) 0 (Z.pos D) 0 in
     binary_round_aux Num.prec Num.emax false q e' l)
    = S754_finite false m e.
Proof.
  intros s D m e Hb Hq. destruct (bounded_canonical m e Hb) as [Hc He].
  unfold SFdiv_core_binary. cbn [Zdigits2].
  set (d1 := Z.pos (digits2_pos s)). set (d2 := Z.pos (digits2_pos D)).
  set (dm := Z.pos (digits2_pos m)) in *.
  pose proof (digits2_bounds s) as Bs. fold d1 in Bs.
  pose proof (digits2_bounds D) as BD. fold d2 in BD.
  pose proof (digits2_bounds m) as Bm. fold dm in Bm.
  replace (d1 + 0 - (d2 + 0)) with (d1 - d2) by lia.
  change (0 - 0) with 0.
  set (e' := Z.min (fexp Num.prec Num.emax (d1 - d2)) 0).
  assert (Hmag : d1 - d2 <= dm + e).
  { destruct (Z.le_gt_cases (d1 - d2) (dm + e)) as [|G]; [assumption|exfalso].
    assert (P2 : 0 < 2 ^ (d2 - 1)) by (apply Z.pow_pos_nonneg; lia).
    assert (Pm : 0 < 2 ^ (dm - 1)) by (apply Z.pow_pos_nonneg; lia).
    destruct Hq as [[E1 E2] | [E1 E2]].
    - assert (Z.pos s < 2 ^ (dm + e + d2)).
      { rewrite E2, !Z.pow_add_r by lia.
        assert (0 < 2 ^ e) by (apply Z.pow_pos_nonneg; lia).
        apply Z.mul_lt_mono_nonneg; try nia. }
      assert (2 ^ (d1 - 1) < 2 ^ (dm + e + d2)) by lia.
      apply pow2_lt_exponent in H0; lia.
    - assert (Z.pos s * 2 ^ (- e) < 2 ^ (dm + d2)).
      { rewrite E2, Z.pow_add_r by lia. nia. }
      assert (2 ^ (d1 - 1 + - e) <= Z.pos s * 2 ^ (- e)).
      { rewrite Z.pow_add_r by lia.
        assert (0 < 2 ^ (- e)) by (apply Z.pow_pos_nonneg; lia). nia. }
      assert (2 ^ (d1 - 1 + - e) < 2 ^ (dm + d2)) by lia.
      apply pow2_lt_exponent in H1; lia. }
  assert (Le : e' <= e).
  { pose proof (fexp_monotone _ _ Hmag). unfold e'. lia. }
  assert (Le0 : e' <= 0) by (unfold e'; lia).
  assert (Hm' : match 0 - e' with
                | 0 => Z.pos s
                | Z.pos _ => Z.shiftl (Z.pos s) (0 - e')
                | Z.neg _ => 0
                end = (Z.pos m * 2 ^ (e - e')) * Z.pos D).
  { assert (Q : Z.pos s * 2 ^ (0 - e') = (Z.pos m * 2 ^ (e - e')) * Z.pos D).
    { destruct Hq as [[E1 E2] | [E1 E2]].
      - rewrite E2. replace (e - e') with (e + (0 - e')) by lia.
        rewrite Z.pow_add_r by lia. ring.
      - replace (0 - e') with (- e + (e - e')) by lia.
        rewrite Z.pow_add_r by lia.
        rewrite Z.mul_assoc, E2. ring. }
    destruct (0 - e') as [|k|k] eqn:Ek; try lia.
    rewrite Z.shiftl_mul_pow2 by lia. exact Q. }
  rewrite Hm', div_eucl_div_mod, Z.div_mul, Z.mod_mul by lia.
  assert (L : new_location (Z.pos D) 0 = loc_Exact).
  { unfold new_location, new_location_even, new_location_odd.
    destruct (Z.even (Z.pos D)); reflexivity. }
  rewrite L. replace e' with (e - (e - e')) at 2 by lia.
  apply binary_round_aux_exact; [assumption | lia].
Qed.

Lemma decimal_round_exact : forall s p m e,
    bounded Num.prec Num.emax m e = true ->
    same_decimal s p m e ->
    decimal_round s p = S754_finite false m e.
Proof.
  intros s p m e Hb [Hs Hv]. unfold decimal_round.
  destruct (Z.leb_spec 0 p) as [Hp|Hp].
  - rewrite Z.max_l in Hv by lia. rewrite (Z.max_r (- p) 0) in Hv by lia.
    change (10 ^ 0) with 1 in Hv. rewrite Z.mul_1_r in Hv.
    assert (P : 0 < 10 ^ p) by (apply Z.pow_pos_nonneg; lia).
    destruct (s * 10 ^ p) as [|N|N] eqn:EN; try nia.
    unfold binary_normalize. apply binary_round_exact; [assumption|].
    unfold same_binary. destruct (Z.le_gt_cases 0 e) as [G|G].
    + left. rewrite Z.max_r, Z.max_l in Hv by lia.
      change (2 ^ 0) with 1 in Hv. rewrite Z.sub_0_r. split; lia.
    + right. rewrite Z.max_l, Z.max_r in Hv by lia.
      change (2 ^ 0) with 1 in Hv. rewrite Z.sub_0_l. split; lia.
  - rewrite Z.max_r in Hv by lia. rewrite (Z.max_l (- p) 0) in Hv by lia.
    change (10 ^ 0) with 1 in Hv. rewrite Z.mul_1_r in Hv.
    assert (P : 0 < 10 ^ (- p)) by (apply Z.pow_pos_nonneg; lia).
    destruct s as [|s|s]; try lia.
    destruct (10 ^ (- p)) as [|D|D] eqn:ED; try lia.
    apply div_round_exact; [assumption|].
    unfold same_quotient. destruct (Z.le_gt_cases 0 e) as [G|G].
    + left. rewrite Z.max_r, Z.max_l in Hv by lia.
      change (2 ^ 0) with 1 in Hv. split; lia.
    + right. rewrite Z.max_l, Z.max_r in Hv by lia.
      change (2 ^ 0) with 1 in Hv. split; lia.
Qed.

Lemma exact_decimal_same : forall m e,
    same_decimal (fst (exact_decimal m e)) (snd (exact_decimal m e)) m e.
Proof.
  intros m e. unfold exact_decimal, same_decimal.
  destruct (Z.leb_spec 0 e) as [H|H]; cbn [fst snd].
  - assert (0 < 2 ^ e) by (apply Z.pow_pos_nonneg; lia).
    split; [nia|].
    rewrite (Z.max_r (- e) 0), (Z.max_l e 0) by lia.
    change (Z.max (- 0) 0) with 0. change (Z.max 0 0) with 0.
    change (10 ^ 0) with 1. change (2 ^ 0) with 1. ring.
  - assert (0 < 5 ^ (- e)) by (apply Z.pow_pos_nonneg; lia).
    split; [nia|].
    rewrite (Z.max_r e 0), (Z.max_l (- e) 0) by lia.
    change (10 ^ 0) with 1. change (2 ^ 0) with 1.
    replace (10 ^ (- e)) with (5 ^ (- e) * 2 ^ (- e))
      by (rewrite <- Z.pow_mul_l; reflexivity).
    ring.
Qed.

Lemma strip_zeros_same : forall m e fuel s p,
    same_decimal s p m e ->
    same_decimal (fst (strip_zeros fuel s p)) (snd (strip_zeros fuel s p)) m e.
Proof.
  intros m e. induction fuel as [|f IH]; intros s p H; cbn [strip_zeros].
  - exact H.
  - destruct ((0 <? s) && (s mod 10 =? 0)) eqn:C; [|exact H].
    apply andb_prop in C. destruct C as [C1 C2].
    apply Z.ltb_lt in C1. apply Z.eqb_eq in C2.
    apply IH. destruct H as [Hs Hv].
    pose proof (Z.div_mod s 10 ltac:(lia)) as Q. rewrite C2 in Q.
    split; [lia|].
    set (s' := s / 10) in *.
    assert (Es : s = 10 * s') by lia. clearbody s'. subst s.
    generalize dependent (2 ^ Z.max (- e) 0). intros A.
    generalize dependent (Z.pos m * 2 ^ Z.max e 0). intros B.
    destruct (Z.le_gt_cases 0 p) as [G|G].
    + rewrite (Z.max_l p 0), (Z.max_r (- p) 0) by lia.
      rewrite (Z.max_l (p + 1) 0), (Z.max_r (- (p + 1)) 0) by lia.
      rewrite Z.pow_add_r by lia. change (10 ^ 1) with 10.
      intros Hv. rewrite <- Hv. ring.
    + rewrite (Z.max_r p 0), (Z.max_l (- p) 0) by lia.
      rewrite (Z.max_r (p + 1) 0), (Z.max_l (- (p + 1)) 0) by lia.
      replace (- p) with (1 + - (p + 1)) by lia.
      rewrite Z.pow_add_r by lia. change (10 ^ 1) with 10.
      change (10 ^ 0) with 1.
      generalize (10 ^ (- (p + 1))). intros T Hv. nia.
Qed.

Lemma number_eqb_eq : forall x y, number_eqb x y = true -> x = y.
Proof.
  intros [a| a| |a m e] [b| b| |b m' e'] H; simpl in H; try discriminate.
  - apply Bool.eqb_prop in H. congruence.
  - apply Bool.eqb_prop in H. congruence.
  - reflexivity.
  - apply andb_prop in H. destruct H as [H H3].
    apply andb_prop in H. destruct H as [H1 H2].
    apply Bool.eqb_prop in H1. apply Pos.eqb_eq in H2. apply Z.eqb_eq in H3.
    congruence.
Qed.

Lemma rounds_to_reads_as : forall x d, rounds_to x d = true -> reads_as x d.
Proof.
  intros x d H. unfold rounds_to in H. apply andb_prop in H.
  destruct H as [H1 H2]. apply Z.ltb_lt in H1. apply number_eqb_eq in H2.
  split; assumption.
Qed.

Lemma shortest_from_reads_as : forall fuel k x full p K,
    reads_as x (normalize_decimal full p) ->
    reads_as x (shortest_from fuel k x full p K).
Proof.
  induction fuel as [|f IH]; intros k x full p K H; cbn [shortest_from].
  - exact H.
  - destruct (K <=? k); [exact H|]. cbv zeta.
    destruct (rounds_to x (normalize_decimal (full / 10 ^ (K - k)) (p + (K - k))))
      eqn:Elo;
      destruct (rounds_to x (normalize_decimal (full / 10 ^ (K - k) + 1)
                               (p + (K - k)))) eqn:Ehi.
    + destruct ((2 * (full mod 10 ^ (K - k)) <? 10 ^ (K - k))
                || (2 * (full mod 10 ^ (K - k)) =? 10 ^ (K - k))
                   && Z.even (full / 10 ^ (K - k)));
        apply rounds_to_reads_as; assumption.
    + apply rounds_to_reads_as; assumption.
    + apply rounds_to_reads_as; assumption.
    + apply IH; assumption.
Qed.

(** The digits chosen for a finite number read back as that number. *)
Lemma shortest_decimal_reads_as : forall m e,
    bounded Num.prec Num.emax m e = true ->
    reads_as (S754_finite false m e) (shortest_decimal m e).
Proof.
  intros m e Hb. unfold shortest_decimal.
  pose proof (exact_decimal_same m e) as H.
  destruct (exact_decimal m e) as [full p]. cbn [fst snd] in H.
  apply shortest_from_reads_as.
  unfold normalize_decimal.
  pose proof (strip_zeros_same m e (Z.to_nat (Z.log2 full)) full p H) as N.
  split; [exact (proj1 N)|].
  apply decimal_round_exact; assumption.
Qed.

End Exact.

(* ================================================================= *)
(** ** Numbers: JSON.parse reads back what JSON.stringify prints *)

Section Numbers.

Lemma layout_head : forall s n,
    0 < s ->
    exists c t, layout_decimal (decimal_digits s) n = c :: t
                /\ is_digit c = true.
Proof.
  intros s n Hs.
  destruct (decimal_digits_spec s ltac:(lia)) as [_ [_ H1]].
  destruct (H1 Hs) as [d [ds [E Hd]]].
  assert (Dd : is_digit (digit_char d) = true)
    by (apply is_digit_digit_char; unfold is_decimal_digit; lia).
  unfold layout_decimal. rewrite E.
  destruct ((Z.of_nat (length (d :: ds)) <=? n) && (n <=? 21)).
  { cbn [digit_chars map app]. eauto. }
  destruct ((0 <? n) && (n <=? 21)) eqn:C.
  { apply andb_prop in C. destruct C as [C _]. apply Z.ltb_lt in C.
    destruct (Z.to_nat n) eqn:En; [lia|].
    cbn [firstn digit_chars map app]. eauto. }
  destruct ((-6 <? n) && (n <=? 0)).
  { cbn [app]. eexists _, _. split; reflexivity. }
  destruct ds; eauto.
Qed.

Lemma digit_not_minus : forall c, is_digit c = true -> (c =? 45) = false.
Proof.
  intros c H. unfold is_digit in H. apply andb_prop in H.
  destruct H as [H _]. apply Z.leb_le in H. apply Z.eqb_neq. lia.
Qed.

Lemma parse_number_NumberToString : forall x rest,
    finite_number x -> after_number rest ->
    parse_number (NumberToString x ++ rest) = Some (positive_zero x, rest).
Proof.
  intros x rest [Hf Hv] Hr.
  destruct x as [sg| | |sign m e]; try discriminate.
  - (* 0 and -0 *)
    change (NumberToString (S754_zero sg)) with [48].
    cbn [app parse_number]. change (48 =? 45) with false. cbv iota.
    unfold parse_unsigned. cbn [parse_int_part].
    change (48 =? 48) with true. cbv iota.
    rewrite parse_frac_none, parse_exp_none by assumption. reflexivity.
  - (* finite *)
    cbn [NumberToString].
    pose proof (shortest_decimal_reads_as m e Hv) as [Hs Hd].
    destruct (shortest_decimal m e) as [s p]. cbn [fst snd] in Hs, Hd.
    pose proof (parse_unsigned_layout s
                  (p + Z.of_nat (length (decimal_digits s))) rest Hs Hr) as P.
    replace (p + Z.of_nat (length (decimal_digits s))
             - Z.of_nat (length (decimal_digits s))) with p in P by lia.
    rewrite Hd in P.
    destruct sign.
    + cbn [app parse_number]. change (45 =? 45) with true. cbv iota.
      rewrite P. reflexivity.
    + destruct (layout_head s (p + Z.of_nat (length (decimal_digits s))) Hs)
        as [c [t [E Hc]]].
      rewrite E in *. cbn [app parse_number].
      rewrite (digit_not_minus c Hc). exact P.
Qed.

(** A printed number starts with a digit or with the minus sign. *)
Lemma NumberToString_head : forall x,
    finite_number x ->
    exists c t, NumberToString x = c :: t /\ (is_digit c = true \/ c = 45).
Proof.
  intros x [Hf Hv].
  destruct x as [sg| | |sign m e]; try discriminate.
  - exists 48, []. split; [reflexivity | left; reflexivity].
  - cbn [NumberToString].
    pose proof (shortest_decimal_reads_as m e Hv) as [Hs _].
    destruct (shortest_decimal m e) as [s p]. cbn [fst] in Hs.
    destruct sign; [eauto|].
    destruct (layout_head s (p + Z.of_nat (length (decimal_digits s))) Hs)
      as [c [t [E Hc]]].
    eauto.
Qed.

End Numbers.

(* ================================================================= *)
(** ** Values: strings, numbers and arrays of numbers *)

Section Values.

Lemma number_start : forall c,
    is_digit c = true \/ c = 45 ->
    is_ws c = false /\ (c =? 123) = false /\ (c =? 91) = false
    /\ (c =? 34) = false /\ (c =? 116) = false /\ (c =? 102) = false
    /\ (c =? 110) = false /\ (c =? 93) = false /\ (c =? 125) = false.
Proof.
  intros c [H | ->]; [|repeat split; reflexivity].
  unfold is_digit in H. apply andb_prop in H. destruct H as [H1 H2].
  apply Z.leb_le in H1. apply Z.leb_le in H2.
  unfold is_ws.
  repeat split; try (apply Z.eqb_neq; lia).
  repeat (apply orb_false_intro); apply Z.eqb_neq; lia.
Qed.

Lemma skip_ws_nonws : forall c t, is_ws c = false -> skip_ws (c :: t) = c :: t.
Proof. intros c t H. cbn [skip_ws]. rewrite H. reflexivity. Qed.

Lemma parse_value_number : forall f x rest,
    finite_number x -> after_number rest ->
    parse_value (S f) (NumberToString x ++ rest)
    = POk (JNum (positive_zero x)) rest.
Proof.
  intros f x rest Hx Hr.
  pose proof (parse_number_NumberToString x rest Hx Hr) as P.
  destruct (NumberToString_head x Hx) as [c [t [E Hc]]].
  rewrite E in *. cbn [app] in *.
  destruct (number_start c Hc) as [W [N1 [N2 [N3 [N4 [N5 [N6 _]]]]]]].
  cbn [parse_value]. rewrite (skip_ws_nonws c _ W), N1, N2, N3, N4, N5, N6, P.
  reflexivity.
Qed.

Lemma parse_value_string : forall f s rest,
    valid_string s ->
    parse_value (S f) (QuoteJSONString s ++ rest) = POk (JStr s) rest.
Proof.
  intros f s rest Hs. unfold QuoteJSONString.
  cbn [app parse_value skip_ws].
  change (is_ws 34) with false. cbv iota.
  change (34 =? 123) with false. change (34 =? 91) with false.
  change (34 =? 34) with true. cbv iota.
  rewrite <- app_assoc. cbn [app].
  rewrite parse_chars_quote by assumption. reflexivity.
Qed.

Lemma after_number_comma : forall rest, after_number (44 :: rest).
Proof. intros rest. left. reflexivity. Qed.

Lemma after_number_bracket : forall rest, after_number (93 :: rest).
Proof. intros rest. right. left. reflexivity. Qed.

Lemma after_number_brace : forall rest, after_number (125 :: rest).
Proof. intros rest. right. right. reflexivity. Qed.

Lemma parse_elements_S : forall f s,
    parse_elements (S f) s
    = match parse_value f s with
      | POk v r =>
          match skip_ws r with
          | [] => PFail
          | c :: r' =>
              if c =? 44 then
                match parse_elements f r' with
                | POk vs r'' => POk (v :: vs) r''
                | PFail => PFail
                | PFuel => PFuel
                end
              else if c =? 93 then POk [v] r'
              else PFail
          end
      | PFail => PFail
      | PFuel => PFuel
      end.
Proof. reflexivity. Qed.

(** The elements of a non-empty array of numbers. *)
Lemma parse_elements_numbers : forall xs x rest f,
    Forall finite_number (x :: xs) ->
    (length xs < f)%nat ->
    parse_elements (S f)
      (join_comma (map NumberToString (x :: xs)) ++ 93 :: rest)
    = POk (map JNum (map positive_zero (x :: xs))) rest.
Proof.
  induction xs as [|y xs IH]; intros x rest f Hf Hfuel;
    inversion Hf as [|? ? Hx Hf']; subst.
  - destruct f as [|f]; [simpl in Hfuel; lia|].
    cbn [map join_comma]. rewrite parse_elements_S.
    rewrite parse_value_number by (auto using after_number_bracket).
    cbn [skip_ws]. change (is_ws 93) with false. cbv iota.
    change (93 =? 44) with false. change (93 =? 93) with true. reflexivity.
  - destruct f as [|f]; [simpl in Hfuel; lia|].
    change (join_comma (map NumberToString (x :: y :: xs)))
      with (NumberToString x ++ 44 :: join_comma (map NumberToString (y :: xs))).
    rewrite <- app_assoc. cbn [app].
    rewrite parse_elements_S.
    rewrite parse_value_number by (auto using after_number_comma).
    cbn [skip_ws]. change (is_ws 44) with false. cbv iota.
    change (44 =? 44) with true. cbv iota.
    rewrite IH; auto. simpl in Hfuel. lia.
Qed.

Lemma serialize_numbers : forall xs,
    Forall finite_number xs ->
    SerializeJSONProperty (JArr (map JNum xs))
    = Some (91 :: join_comma (map NumberToString xs) ++ [93]).
Proof.
  intros xs H. cbn [SerializeJSONProperty]. f_equal. f_equal. f_equal. f_equal.
  induction H as [|x xs [Hx _] _ IH]; [reflexivity|].
  cbn [map SerializeJSONProperty]. rewrite Hx, IH. reflexivity.
Qed.

(** An array of numbers, as printed, is read back. *)
Lemma parse_value_numbers : forall xs rest f,
    Forall finite_number xs ->
    (length xs < f)%nat ->
    parse_value (S f) (91 :: join_comma (map NumberToString xs) ++ 93 :: rest)
    = POk (JArr (map JNum (map positive_zero xs))) rest.
Proof.
  intros xs rest f Hf Hfuel. destruct xs as [|x xs].
  - reflexivity.
  - destruct f as [|f]; [simpl in Hfuel; lia|].
    pose proof (parse_elements_numbers xs x rest f Hf
                  ltac:(simpl in Hfuel; lia)) as P.
    assert (Hhead : exists c t,
               join_comma (map NumberToString (x :: xs)) ++ 93 :: rest = c :: t
               /\ (is_digit c = true \/ c = 45)).
    { inversion Hf as [|? ? Hx _]; subst.
      destruct (NumberToString_head x Hx) as [c [t [E Hc]]].
      destruct xs as [|y xs]; cbn [map join_comma]; rewrite E;
        cbn [app]; eauto. }
    destruct Hhead as [c [t [E Hc]]]. rewrite E in *.
    destruct (number_start c Hc) as [W [_ [_ [_ [_ [_ [_ [N8 _]]]]]]]].
    cbn [parse_value skip_ws]. change (is_ws 91) with false. cbv iota.
    change (91 =? 123) with false. change (91 =? 91) with true. cbv iota.
    rewrite (skip_ws_nonws c t W), N8, P. reflexivity.
Qed.

End Values.

(* ================================================================= *)
(** ** The result of the parser does not depend on the recursion bound *)

Section Stable.

Lemma parse_value_S : forall f s,
    parse_value (S f) s =
      match skip_ws s with
      | [] => PFail
      | c :: rest =>
          if c =? 123 then
            match skip_ws rest with
            | [] => PFail
            | c' :: rest' =>
                if c' =? 125 then POk (JObj []) rest'
                else
                  match parse_members f (c' :: rest') with
                  | POk members r => POk (JObj (fold_left set_prop members [])) r
                  | PFail => PFail
                  | PFuel => PFuel
                  end
            end
          else if c =? 91 then
            match skip_ws rest with
            | [] => PFail
            | c' :: rest' =>
                if c' =? 93 then POk (JArr []) rest'
                else
                  match parse_elements f (c' :: rest') with
                  | POk elems r => POk (JArr elems) r
                  | PFail => PFail
                  | PFuel => PFuel
                  end
            end
          else if c =? 34 then
            match parse_chars rest with
            | Some (str, r) => POk (JStr str) r
            | None => PFail
            end
          else if c =? 116 then parse_literal (js "true") (JBool true) (c :: rest)
          else if c =? 102 then parse_literal (js "false") (JBool false) (c :: rest)
          else if c =? 110 then parse_literal (js "null") JNull (c :: rest)
          else
            match parse_number (c :: rest) with
            | Some (x, r) => POk (JNum x) r
            | None => PFail
            end
      end.
Proof. reflexivity. Qed.

Lemma parse_members_S : forall f s,
    parse_members (S f) s =
      match skip_ws s with
      | [] => PFail
      | q :: s1 =>
          if q =? 34 then
            match parse_chars s1 with
            | None => PFail
            | Some (key, s2) =>
                match skip_ws s2 with
                | [] => PFail
                | colon :: s3 =>
                    if colon =? 58 then
                      match parse_value f s3 with
                      | POk v r =>
                          match skip_ws r with
                          | [] => PFail
                          | c :: r' =>
                              if c =? 44 then
                                match parse_members f r' with
                                | POk kvs r'' => POk ((key, v) :: kvs) r''
                                | PFail => PFail
                                | PFuel => PFuel
                                end
                              else if c =? 125 then POk [(key, v)] r'
                              else PFail
                          end
                      | PFail => PFail
                      | PFuel => PFuel
                      end
                    else PFail
                end
            end
          else PFail
      end.
Proof. reflexivity. Qed.

Lemma parse_fuel_stable : forall f,
    (forall s, parse_value f s <> PFuel ->
               parse_value (S f) s = parse_value f s)
    /\ (forall s, parse_elements f s <> PFuel ->
                  parse_elements (S f) s = parse_elements f s)
    /\ (forall s, parse_members f s <> PFuel ->
                  parse_members (S f) s = parse_members f s).
Proof.
  induction f as [|f' [IHv [IHe IHm]]].
  - repeat split; intros s H; elim H; reflexivity.
  - split; [|split]; intros s;
      [ rewrite (parse_value_S (S f')), (parse_value_S f')
      | rewrite (parse_elements_S (S f')), (parse_elements_S f')
      | rewrite (parse_members_S (S f')), (parse_members_S f') ];
      repeat (first
        [ match goal with
          | |- context [parse_value f' ?x] =>
              let E := fresh "E" in
              destruct (parse_value f' x) eqn:E;
              [ rewrite (IHv x) by (rewrite E; discriminate); rewrite E
              | rewrite (IHv x) by (rewrite E; discriminate); rewrite E
              | intros H; exfalso; apply H; reflexivity ]
          | |- context [parse_elements f' ?x] =>
              let E := fresh "E" in
              destruct (parse_elements f' x) eqn:E;
              [ rewrite (IHe x) by (rewrite E; discriminate); rewrite E
              | rewrite (IHe x) by (rewrite E; discriminate); rewrite E
              | intros H; exfalso; apply H; reflexivity ]
          | |- context [parse_members f' ?x] =>
              let E := fresh "E" in
              destruct (parse_members f' x) eqn:E;
              [ rewrite (IHm x) by (rewrite E; discriminate); rewrite E
              | rewrite (IHm x) by (rewrite E; discriminate); rewrite E
              | intros H; exfalso; apply H; reflexivity ]
          end
        | match goal with
          | |- context [match skip_ws ?x with _ => _ end] =>
              destruct (skip_ws x) eqn:?
          | |- context [match parse_chars ?x with _ => _ end] =>
              destruct (parse_chars x) as [[? ?]|] eqn:?
          | |- context [if ?b then _ else _] => destruct b eqn:?
          end ]; cbv beta iota);
      intros _; reflexivity.
Qed.

Lemma parse_value_fuel_le : forall s f F,
    (f <= F)%nat -> parse_value f s <> PFuel ->
    parse_value F s = parse_value f s.
Proof.
  intros s f F H. induction H as [|F H IH]; intros N; [reflexivity|].
  rewrite <- (IH N).
  apply (proj1 (parse_fuel_stable F)). rewrite (IH N). exact N.
Qed.

(** When the parser succeeds with some bound, [JSON.parse] succeeds with the
    same value. *)
Lemma JSON_parse_any_fuel : forall text f v,
    parse_value f text = POk v [] -> JSON_parse text = Ok v.
Proof.
  intros text f v H. unfold JSON_parse.
  assert (E : parse_value (2 * length text + 1) text = POk v []).
  { destruct (Nat.le_ge_cases f (2 * length text + 1)) as [L|L].
    - rewrite (parse_value_fuel_le text f _ L); [exact H|].
      rewrite H. discriminate.
    - rewrite <- (parse_value_fuel_le text _ f L); [exact H|].
      apply parse_value_fuel. }
  rewrite E. reflexivity.
Qed.

End Stable.

(* ================================================================= *)
(** ** Records: FormatEmbedding reads back what GenerateEmbedding writes *)

Section Records.

Lemma serialize_object : forall props,
    SerializeJSONProperty (JObj props)
    = Some (123 :: join_comma (member_texts props) ++ [125]).
Proof.
  intros props. reflexivity.
Qed.

Lemma stringify_record : forall r,
    valid_record r ->
    JSON_stringify (record_value r) = Some (record_text r).
Proof.
  intros r (_ & _ & He & _ & _ & [Hp _] & [Ht _]).
  unfold JSON_stringify, record_value. rewrite serialize_object.
  cbn [member_texts]. rewrite (serialize_numbers _ He).
  cbn [SerializeJSONProperty]. rewrite Hp, Ht.
  unfold record_text, member. cbn [join_comma].
  f_equal. f_equal.
  repeat (rewrite <- ?app_assoc; cbn [app]; f_equal).
Qed.

Lemma parse_members_step : forall f key value v more kvs r,
    valid_string (js key) ->
    parse_value f (value ++ 44 :: more) = POk v (44 :: more) ->
    parse_members f more = POk kvs r ->
    parse_members (S f) (member key value (44 :: more))
    = POk ((js key, v) :: kvs) r.
Proof.
  intros f key value v more kvs r Hk Hv Hm.
  rewrite parse_members_S. unfold member, QuoteJSONString.
  cbn [app skip_ws]. change (is_ws 34) with false. cbv iota.
  change (34 =? 34) with true. cbv iota.
  rewrite <- app_assoc. cbn [app].
  rewrite parse_chars_quote by assumption.
  cbn [skip_ws]. change (is_ws 58) with false. cbv iota.
  change (58 =? 58) with true. cbv iota.
  unfold jsstring, code_unit in *.
  rewrite Hv. cbn [skip_ws]. change (is_ws 44) with false. cbv iota.
  change (44 =? 44) with true. cbv iota. rewrite Hm. reflexivity.
Qed.

Lemma parse_members_last : forall f key value v rest,
    valid_string (js key) ->
    parse_value f (value ++ 125 :: rest) = POk v (125 :: rest) ->
    parse_members (S f) (member key value (125 :: rest))
    = POk [(js key, v)] rest.
Proof.
  intros f key value v rest Hk Hv.
  rewrite parse_members_S. unfold member, QuoteJSONString.
  cbn [app skip_ws]. change (is_ws 34) with false. cbv iota.
  change (34 =? 34) with true. cbv iota.
  rewrite <- app_assoc. cbn [app].
  rewrite parse_chars_quote by assumption.
  cbn [skip_ws]. change (is_ws 58) with false. cbv iota.
  change (58 =? 58) with true. cbv iota.
  unfold jsstring, code_unit in *.
  rewrite Hv. cbn [skip_ws]. change (is_ws 125) with false. cbv iota.
  change (125 =? 44) with false. change (125 =? 125) with true. reflexivity.
Qed.

Lemma parse_value_object : forall f key value rest kvs r v,
    parse_members f (member key value rest) = POk kvs r ->
    JObj (fold_left set_prop kvs []) = v ->
    parse_value (S f) (123 :: member key value rest) = POk v r.
Proof.
  intros f key value rest kvs r v H <-.
  rewrite parse_value_S. cbn [skip_ws]. change (is_ws 123) with false.
  cbv iota. change (123 =? 123) with true. cbv iota.
  unfold member, QuoteJSONString in *. cbn [app skip_ws] in *.
  change (is_ws 34) with false. cbv iota.
  change (34 =? 125) with false. cbv iota.
  unfold jsstring, code_unit in *. rewrite H. reflexivity.
Qed.

Lemma valid_js : forall s : string, valid_string (js s).
Proof.
  intros s. unfold valid_string, js. apply Forall_forall.
  intros c H. apply in_map_iff in H. destruct H as [a [<- _]].
  pose proof (N_ascii_bounded a). lia.
Qed.

(** The parser reads the transport string of a record back. *)
Lemma parse_record_text : forall r,
    valid_record r ->
    parse_value (9 + length (embedding r)) (record_text r)
    = POk (record_value (read_back r)) [].
Proof.
  intros r (Hid & Hin & He & Hfo & Hmo & Hp & Ht).
  cbn [Nat.add]. unfold record_text.
  eapply parse_value_object.
  - eapply parse_members_step;
      [ apply valid_js | apply parse_value_string; assumption | ].
    eapply parse_members_step;
      [ apply valid_js | apply parse_value_string; assumption | ].
    eapply parse_members_step; [ apply valid_js | | ].
    { cbn [app]. rewrite <- app_assoc. cbn [app].
      apply parse_value_numbers; [assumption | lia]. }
    eapply parse_members_step;
      [ apply valid_js | apply parse_value_string; assumption | ].
    eapply parse_members_step;
      [ apply valid_js | apply parse_value_string; assumption | ].
    eapply parse_members_step;
      [ apply valid_js
      | apply parse_value_number; [assumption | apply after_number_comma] | ].
    apply parse_members_last;
      [ apply valid_js
      | apply parse_value_number; [assumption | apply after_number_brace] ].
  - reflexivity.
Qed.

Lemma positive_zero_id : forall x, x <> Num.nzero -> positive_zero x = x.
Proof.
  intros [[|]| | |sg m e] H; try reflexivity. elim H. reflexivity.
Qed.

Lemma read_back_id : forall r, no_negative_zero r -> read_back r = r.
Proof.
  intros [i inp emb fo mo pt tt] (He & Hp & Ht). unfold read_back.
  cbn [id input embedding formatted model prompt_tokens total_tokens] in *.
  rewrite (positive_zero_id pt Hp), (positive_zero_id tt Ht).
  f_equal. induction He as [|x xs Hx _ IH]; [reflexivity|].
  cbn [map]. rewrite (positive_zero_id x Hx), IH. reflexivity.
Qed.

Lemma format_record_text : forall r,
    valid_record r ->
    FormatEmbedding_execute (JSON_stringify (record_value r))
    = Ok (record_value (read_back r)).
Proof.
  intros r Hv. rewrite (stringify_record r Hv).
  pose proof (JSON_parse_any_fuel _ _ _ (parse_record_text r Hv)) as P.
  unfold record_text in *. cbn [FormatEmbedding_execute].
  unfold jsstring, code_unit in *. rewrite P. reflexivity.
Qed.

End Records.

(** C2, as stated, fails: a record whose vector holds the finite number -0
    is written with [0] in its place and read back with +0, which is another
    number. *)
Lemma round_trip_loses_negative_zero :
  valid_record negative_zero_record
  /\ FormatEmbedding_execute (JSON_stringify (record_value negative_zero_record))
     = Ok (record_value (read_back negative_zero_record))
  /\ FormatEmbedding_execute (JSON_stringify (record_value negative_zero_record))
     <> Ok (record_value negative_zero_record).
Proof.
  assert (V : valid_record negative_zero_record).
  { repeat split; try apply valid_js; repeat constructor. }
  assert (E := format_record_text negative_zero_record V).
  split; [exact V | split; [exact E|]].
  rewrite E. intros H. inversion H.
Qed.

(** C2, amended: for every valid record (seven attributes, finite numbers),
    parsing the string that stringify produces gives the record back
    attribute for attribute, with the vector's values and length, except
    that a number -0 comes back as 0; for a record without -0 the result is
    the record itself. *)
Theorem record_round_trip : forall r : EmbeddingRecord,
    valid_record r ->
    FormatEmbedding_execute (JSON_stringify (record_value r))
    = Ok (record_value (read_back r))
    /\ (no_negative_zero r ->
        FormatEmbedding_execute (JSON_stringify (record_value r))
        = Ok (record_value r)).
Proof.
  intros r Hv. split.
  - apply format_record_text; assumption.
  - intros Hz. rewrite (format_record_text r Hv), (read_back_id r Hz).
    reflexivity.
Qed.

Lemma record_round_trip_witness :
  FormatEmbedding_execute (JSON_stringify (record_value sample_record))
  = Ok (record_value sample_record).
Proof.
  apply (record_round_trip sample_record).
  - repeat split; try apply valid_js; repeat constructor.
  - repeat split; repeat constructor; discriminate.
Defined.

(* ################################################################# *)
(** * Further properties *)

(* ================================================================= *)
(** ** CosineSimilarity: symmetry and values that are not finite *)

Section CosineMore.

Lemma mul_comm : forall x y, Num.mul x y = Num.mul y x.
Proof.
  intros [a|a| |a m e] [b|b| |b m' e']; unfold Num.mul; cbn [SFmul];
    rewrite ?(xorb_comm a b); try reflexivity.
  rewrite (Pos.mul_comm m m'), (Z.add_comm e e'). reflexivity.
Qed.

Lemma accumulate_swap : forall a b st,
    accumulate b a (swap_sums st) = swap_sums (accumulate a b st).
Proof.
  induction a as [|x a IH]; intros [|y b] st; try reflexivity.
  cbn [accumulate]. rewrite <- IH. unfold swap_sums at 2.
  cbn [dotProduct normA normB]. rewrite (mul_comm y x). reflexivity.
Qed.

Lemma mul_not_finite : forall x y,
    not_finite x -> not_finite (Num.mul x y) /\ not_finite (Num.mul y x).
Proof.
  intros [a|a| |a m e] y H; try discriminate;
    destruct y as [b|b| |b m' e']; split; reflexivity.
Qed.

Lemma add_not_finite : forall x y,
    not_finite x -> not_finite (Num.add x y) /\ not_finite (Num.add y x).
Proof.
  intros [a|a| |a m e] y H; try discriminate;
    destruct y as [b|b| |b m' e']; split; try reflexivity;
    destruct a, b; reflexivity.
Qed.

Lemma sqrt_not_finite : forall x, not_finite x -> not_finite (Num.sqrt x).
Proof.
  intros [a|[|]| |a m e] H; try discriminate; reflexivity.
Qed.

Lemma div_not_finite : forall x y,
    not_finite x -> not_finite y -> Num.div x y = Num.nan.
Proof.
  intros [a|a| |a m e] [b|b| |b m' e'] Hx Hy; try discriminate; reflexivity.
Qed.

Lemma not_finite_not_zero : forall x,
    not_finite x -> Num.strict_eq x Num.pzero = false.
Proof.
  intros [a|[|]| |a m e] H; try discriminate; reflexivity.
Qed.

(** Once the dot product and the first norm are not finite they stay so, and
    an entry of the first array that is not finite makes them so. *)
Lemma accumulate_not_finite : forall a b st,
    length a = length b ->
    (not_finite (dotProduct st) /\ not_finite (normA st))
    \/ Exists not_finite a ->
    not_finite (dotProduct (accumulate a b st))
    /\ not_finite (normA (accumulate a b st)).
Proof.
  induction a as [|x a IH]; intros [|y b] st Hlen H; try discriminate.
  - destruct H as [H | H]; [exact H | inversion H].
  - cbn [accumulate]. apply IH; [simpl in Hlen; congruence|].
    cbn [dotProduct normA].
    destruct H as [[Hd Hn] | H].
    + left. split; [apply (add_not_finite _ _ Hd) | apply (add_not_finite _ _ Hn)].
    + inversion H as [? ? Hx | ? ? Hex]; subst.
      * left. split.
        -- apply (add_not_finite (Num.mul x y) (dotProduct st)),
             (mul_not_finite x y Hx).
        -- apply (add_not_finite (Num.mul x x) (normA st)),
             (mul_not_finite x x Hx).
      * right. exact Hex.
Qed.

End CosineMore.

(** The similarity is symmetric: exchanging the two arrays gives the same
    outcome, number for number and error for error. *)
Theorem cosine_symmetric : forall a b : list number,
    cosineSimilarity a b = cosineSimilarity b a.
Proof.
  intros a b. unfold cosineSimilarity.
  rewrite (Nat.eqb_sym (length b) (length a)).
  destruct (Nat.eqb (length a) (length b)); [|reflexivity].
  cbn [negb].
  pose proof (accumulate_swap a b sums0) as S.
  change (swap_sums sums0) with sums0 in S. rewrite S.
  unfold swap_sums. cbn [dotProduct normA normB].
  rewrite (orb_comm (Num.strict_eq (normB (accumulate a b sums0)) Num.pzero)).
  rewrite (mul_comm (Num.sqrt (normB (accumulate a b sums0)))).
  reflexivity.
Qed.

(** NaN and the infinities go through: for arrays of equal length, when an
    entry of the first array is NaN, Infinity or -Infinity, the result is NaN,
    unless the squared norm of the second array is zero, and then it is 0. *)
Theorem cosine_not_finite : forall a b : list number,
    length a = length b ->
    Exists not_finite a ->
    cosineSimilarity a b
    = Ok (if Num.strict_eq (sum_squares b Num.pzero) Num.pzero
          then Num.pzero else Num.nan).
Proof.
  intros a b Hlen Hex.
  rewrite (cosine_same_length a b Hlen). cbv zeta.
  destruct (accumulate_not_finite a b sums0 Hlen (or_intror Hex)) as [Hd Hn].
  rewrite (not_finite_not_zero _ Hn). cbn [orb].
  rewrite (accumulate_normB a b sums0 Hlen). cbn [normB sums0].
  destruct (Num.strict_eq (sum_squares b Num.pzero) Num.pzero); [reflexivity|].
  rewrite div_not_finite; [reflexivity | exact Hd |].
  apply (mul_not_finite (Num.sqrt (normA (accumulate a b sums0)))).
  apply sqrt_not_finite. exact Hn.
Qed.

Lemma cosine_not_finite_witness :
  cosineSimilarity [Num.of_Z 1; S754_infinity false] (vec [3; 4]) = Ok Num.nan.
Proof.
  apply (cosine_not_finite [Num.of_Z 1; S754_infinity false] (vec [3; 4])).
  - reflexivity.
  - apply Exists_cons_tl, Exists_cons_hd. reflexivity.
Defined.

(* ================================================================= *)
(** ** getConnectionName *)

(** The key is accepted exactly when the models request is answered with
    status 200, whatever the body; any other status is refused with the
    invalid-key error, and a failure of the request itself is passed on. *)
Theorem getConnectionName_accepts_200 : forall (fetch : fetcher),
    (forall name,
        getConnectionName fetch = Ok name <->
        name = connection_name
        /\ exists resp, fetch models_request = Ok resp /\ status resp = 200)
    /\ (forall resp, fetch models_request = Ok resp -> status resp <> 200 ->
                     getConnectionName fetch = Throw (Error invalid_api_key))
    /\ (forall e, fetch models_request = Throw e ->
                  getConnectionName fetch = Throw e).
Proof.
  intros fetch. unfold getConnectionName.
  destruct (fetch models_request) as [resp|e]; cbn [bind].
  - destruct (Z.eqb_spec (status resp) 200) as [E|E].
    + split; [|split].
      * intros name. split.
        -- intros H. injection H as <-. split; [reflexivity | eauto].
        -- intros [-> _]. reflexivity.
      * intros r H. injection H as <-. contradiction.
      * discriminate.
    + split; [|split].
      * intros name. split; [discriminate|].
        intros [_ [r [H Hs]]]. injection H as <-. contradiction.
      * reflexivity.
      * discriminate.
  - split; [|split].
    + intros name. split; [discriminate|].
      intros [_ [r [H _]]]. discriminate.
    + discriminate.
    + intros e' H. injection H as <-. reflexivity.
Qed.

Lemma getConnectionName_accepts_200_witness :
  getConnectionName unauthorized_fetch = Throw (Error invalid_api_key).
Proof.
  apply (proj1 (proj2 (getConnectionName_accepts_200 unauthorized_fetch))
           {| status := 401; body := JNull |}).
  - reflexivity.
  - cbn. lia.
Defined.

(* ================================================================= *)
(** ** generateEmbedding: what every outcome looks like *)

Section Outcomes.

Lemma or_else_figure_kept : forall v, figure_kept (or_else v (JNum Num.pzero)).
Proof.
  intros v. unfold figure_kept, or_else.
  destruct (truthy v) eqn:T; [left; exact T | right; reflexivity].
Qed.



(** A record comes only from a response with status 200, and it is the
    seven-property object literal. *)
Lemma generateEmbedding_shape : forall text model fetch v,
    generateEmbedding text model fetch = Ok v ->
    exists resp index embedding model_name prompt total,
      fetch (embeddings_request text model) = Ok resp
      /\ status resp = 200
      /\ v = embedding_object (ToString index) text embedding model_name
               prompt total
      /\ figure_kept prompt /\ figure_kept total.
Proof.
  intros text model fetch v H. unfold generateEmbedding in H.
  destruct (fetch (embeddings_request text model)) as [resp|e] eqn:Hf;
    cbn [bind] in H; [|discriminate].
  destruct (Z.eqb_spec (status resp) 200) as [Hs|Hs]; cbn [negb] in H.
  2:{ destruct (get_prop (body resp) (js "error")) as [err|]; cbn [bind] in H;
        [|discriminate].
      destruct (get_prop_opt err (js "message")); discriminate. }
  destruct (get_prop (body resp) (js "data")) as [results|]; cbn [bind] in H;
    [|discriminate].
  destruct (truthy results); cbn [negb] in H; [|discriminate].
  destruct (get_prop results (js "length")) as [len|]; cbn [bind] in H;
    [|discriminate].
  destruct (strict_eq_zero len); [discriminate|].
  destruct (get_first results) as [obj|]; cbn [bind] in H; [|discriminate].
  destruct (get_prop (body resp) (js "usage")) as [usage|]; cbn [bind] in H;
    [|discriminate].
  destruct (get_prop_opt usage (js "prompt_tokens")) as [p|]; cbn [bind] in H;
    [|discriminate].
  destruct (get_prop_opt usage (js "total_tokens")) as [t|]; cbn [bind] in H;
    [|discriminate].
  destruct (get_prop obj (js "index")) as [index|]; cbn [bind] in H;
    [|discriminate].
  destruct (get_prop obj (js "embedding")) as [emb|]; cbn [bind] in H;
    [|discriminate].
  destruct (get_prop (body resp) (js "model")) as [mo|]; cbn [bind] in H;
    [|discriminate].
  injection H as <-.
  exists resp, index, emb, mo, (or_else p (JNum Num.pzero)),
    (or_else t (JNum Num.pzero)).
  repeat split; auto using or_else_figure_kept.
Qed.

End Outcomes.

(** Whatever the provider answers, a record that generateEmbedding returns
    comes from a response with status 200 and is an object with exactly the
    seven properties id, input, embedding, formatted, model, prompt_tokens
    and total_tokens, in that order: id is a string, input is the text
    passed in, formatted is the constant label, and each token figure is
    either truthy or the number 0, never undefined, null, NaN or empty. *)
Theorem generateEmbedding_record_shape :
  forall (text model : jsstring) (fetch : fetcher) (v : jsval),
    generateEmbedding text model fetch = Ok v ->
    exists resp index embedding model_name prompt total,
      fetch (embeddings_request text model) = Ok resp
      /\ status resp = 200
      /\ v = JObj [ (js "id", JStr (ToString index));
                    (js "input", JStr text);
                    (js "embedding", embedding);
                    (js "formatted", JStr (js "Embedding Object"));
                    (js "model", model_name);
                    (js "prompt_tokens", prompt);
                    (js "total_tokens", total) ]
      /\ figure_kept prompt /\ figure_kept total.
Proof. exact generateEmbedding_shape. Qed.

Lemma generateEmbedding_record_shape_witness :
  exists resp index embedding model_name prompt total,
    sample_fetch (embeddings_request (js "hello world") default_model) = Ok resp
    /\ status resp = 200
    /\ record_value sample_record
       = JObj [ (js "id", JStr (ToString index));
                (js "input", JStr (js "hello world"));
                (js "embedding", embedding);
                (js "formatted", JStr (js "Embedding Object"));
                (js "model", model_name);
                (js "prompt_tokens", prompt);
                (js "total_tokens", total) ]
    /\ figure_kept prompt /\ figure_kept total.
Proof.
  apply (generateEmbedding_record_shape (js "hello world") default_model
           sample_fetch (record_value sample_record)).
  vm_compute. reflexivity.
Defined.



(** When GenerateEmbedding returns, what it returns is a string, never
    undefined, and the string starts with an opening brace. *)
Theorem GenerateEmbedding_returns_string :
  forall (text : jsstring) (model : option jsstring) (fetch : fetcher)
         (out : option jsstring),
    GenerateEmbedding_execute text model fetch = Ok out ->
    exists tail, out = Some (123 :: tail).
Proof.
  intros text model fetch out H. unfold GenerateEmbedding_execute in H.
  destruct (generateEmbedding text
              match model with Some m => m | None => default_model end fetch)
    as [v|e] eqn:G; cbn [bind] in H; [|discriminate].
  injection H as <-.
  destruct (generateEmbedding_shape _ _ _ _ G)
    as (resp & index & emb & mo & p & t & _ & _ & -> & _).
  unfold embedding_object, JSON_stringify. rewrite serialize_object. eauto.
Qed.

Lemma GenerateEmbedding_returns_string_witness :
  exists tail,
    JSON_stringify (record_value sample_record) = Some (123 :: tail).
Proof.
  apply (GenerateEmbedding_returns_string (js "hello world") None sample_fetch).
  vm_compute. reflexivity.
Defined.

(* ================================================================= *)
(** ** Stored objects: what FormatEmbedding reads back *)

Section Stored.

Lemma parse_value_null : forall f rest,
    parse_value (S f) (js "null" ++ rest) = POk JNull rest.
Proof. intros f rest. reflexivity. Qed.

Lemma parse_value_bool : forall f (b : bool) rest,
    parse_value (S f) ((if b then js "true" else js "false") ++ rest)
    = POk (JBool b) rest.
Proof. intros f [|] rest; reflexivity. Qed.

Lemma parse_value_number_text : forall f x rest,
    Num.valid x = true -> after_number rest ->
    parse_value (S f) (number_text x ++ rest) = POk (stored_number x) rest.
Proof.
  intros f x rest Hv Hr. unfold number_text, stored_number.
  destruct (Num.is_finite x) eqn:F.
  - apply parse_value_number; [split; assumption | assumption].
  - apply parse_value_null.
Qed.

(** A number text starts with a digit, the minus sign or the [n] of null. *)
Lemma number_text_head : forall x,
    Num.valid x = true ->
    exists c t, number_text x = c :: t
                /\ is_ws c = false /\ (c =? 93) = false.
Proof.
  intros x Hv. unfold number_text. destruct (Num.is_finite x) eqn:F.
  - destruct (NumberToString_head x (conj F Hv)) as [c [t [E Hc]]].
    destruct (number_start c Hc) as [W [_ [_ [_ [_ [_ [_ [N _]]]]]]]].
    eauto.
  - exists 110, [117; 108; 108]. repeat split.
Qed.

Lemma parse_elements_number_texts : forall xs x rest f,
    Forall (fun y => Num.valid y = true) (x :: xs) ->
    (length xs < f)%nat ->
    parse_elements (S f)
      (join_comma (map number_text (x :: xs)) ++ 93 :: rest)
    = POk (map stored_number (x :: xs)) rest.
Proof.
  induction xs as [|y xs IH]; intros x rest f Hf Hfuel;
    inversion Hf as [|? ? Hx Hf']; subst.
  - destruct f as [|f]; [simpl in Hfuel; lia|].
    cbn [map join_comma]. rewrite parse_elements_S.
    rewrite parse_value_number_text by (auto using after_number_bracket).
    cbn [skip_ws]. change (is_ws 93) with false. cbv iota.
    change (93 =? 44) with false. change (93 =? 93) with true. reflexivity.
  - destruct f as [|f]; [simpl in Hfuel; lia|].
    change (join_comma (map number_text (x :: y :: xs)))
      with (number_text x ++ 44 :: join_comma (map number_text (y :: xs))).
    rewrite <- app_assoc. cbn [app].
    rewrite parse_elements_S.
    rewrite parse_value_number_text by (auto using after_number_comma).
    cbn [skip_ws]. change (is_ws 44) with false. cbv iota.
    change (44 =? 44) with true. cbv iota.
    rewrite IH; auto. simpl in Hfuel. lia.
Qed.

Lemma serialize_number_array : forall xs,
    SerializeJSONProperty (JArr (map JNum xs))
    = Some (91 :: join_comma (map number_text xs) ++ [93]).
Proof.
  intros xs. cbn [SerializeJSONProperty]. f_equal. f_equal. f_equal. f_equal.
  induction xs as [|x xs IH]; [reflexivity|].
  cbn [map SerializeJSONProperty]. rewrite IH. reflexivity.
Qed.

Lemma stored_number_array : forall xs,
    stored (JArr (map JNum xs)) = JArr (map stored_number xs).
Proof.
  intros xs. cbn [stored]. f_equal. rewrite map_map. reflexivity.
Qed.

Lemma parse_value_number_array : forall xs rest f,
    Forall (fun y => Num.valid y = true) xs ->
    (length xs < f)%nat ->
    parse_value (S f) (91 :: join_comma (map number_text xs) ++ 93 :: rest)
    = POk (JArr (map stored_number xs)) rest.
Proof.
  intros xs rest f Hf Hfuel. destruct xs as [|x xs].
  - reflexivity.
  - destruct f as [|f]; [simpl in Hfuel; lia|].
    pose proof (parse_elements_number_texts xs x rest f Hf
                  ltac:(simpl in Hfuel; lia)) as P.
    assert (Hhead : exists c t,
               join_comma (map number_text (x :: xs)) ++ 93 :: rest = c :: t
               /\ is_ws c = false /\ (c =? 93) = false).
    { inversion Hf as [|? ? Hx _]; subst.
      destruct (number_text_head x Hx) as [c [t [E Hc]]].
      destruct xs as [|y xs]; cbn [map join_comma]; rewrite E;
        cbn [app]; eauto. }
    destruct Hhead as [c [t [E [W N]]]]. rewrite E in *.
    rewrite parse_value_S. cbn [skip_ws]. change (is_ws 91) with false.
    cbv iota. change (91 =? 123) with false. change (91 =? 91) with true.
    cbv iota. rewrite (skip_ws_nonws c t W), N, P. reflexivity.
Qed.

(** The text of a flat value is read back as the stored value. *)
Lemma parse_value_flat : forall v rest f,
    flat v -> after_number rest -> (width v < f)%nat ->
    parse_value (S f) (value_text v ++ rest) = POk (stored v) rest.
Proof.
  intros v rest f Hv Hr Hf. destruct Hv as [|b|x Hx|s Hs|xs Hxs].
  - apply parse_value_null.
  - destruct b; reflexivity.
  - apply parse_value_number_text; assumption.
  - apply parse_value_string; assumption.
  - unfold value_text. rewrite serialize_number_array, stored_number_array.
    cbn [app]. rewrite <- app_assoc. cbn [app].
    apply parse_value_number_array; [assumption|].
    cbn [width] in Hf. rewrite length_map in Hf. exact Hf.
Qed.

Lemma flat_serialized : forall v,
    flat v ->
    SerializeJSONProperty v = Some (value_text v) /\ is_undefined v = false.
Proof.
  intros v H. unfold value_text.
  destruct H as [|b|x Hx|s Hs|xs Hxs]; try destruct b; split; reflexivity.
Qed.

Lemma member_texts_written : forall props,
    Forall (fun kv => valid_string (fst kv)
                      /\ (snd kv = JUndefined \/ flat (snd kv))) props ->
    member_texts props = map member_text (written props).
Proof.
  induction 1 as [|[k w] props [_ Hw] _ IH]; [reflexivity|].
  cbn [member_texts written filter snd fst] in *.
  destruct Hw as [-> | Hw].
  - cbn. exact IH.
  - destruct (flat_serialized w Hw) as [-> ->]. cbn [negb map].
    rewrite IH. reflexivity.
Qed.

Lemma parse_members_cons : forall f key value v more kvs r,
    valid_string key ->
    parse_value f (value ++ 44 :: more) = POk v (44 :: more) ->
    parse_members f more = POk kvs r ->
    parse_members (S f) (QuoteJSONString key ++ 58 :: value ++ 44 :: more)
    = POk ((key, v) :: kvs) r.
Proof.
  intros f key value v more kvs r Hk Hv Hm.
  rewrite parse_members_S. unfold QuoteJSONString.
  cbn [app skip_ws]. change (is_ws 34) with false. cbv iota.
  change (34 =? 34) with true. cbv iota.
  rewrite <- app_assoc. cbn [app].
  rewrite parse_chars_quote by assumption.
  cbn [skip_ws]. change (is_ws 58) with false. cbv iota.
  change (58 =? 58) with true. cbv iota.
  unfold jsstring, code_unit in *.
  rewrite Hv. cbn [skip_ws]. change (is_ws 44) with false. cbv iota.
  change (44 =? 44) with true. cbv iota. rewrite Hm. reflexivity.
Qed.

Lemma parse_members_end : forall f key value v rest,
    valid_string key ->
    parse_value f (value ++ 125 :: rest) = POk v (125 :: rest) ->
    parse_members (S f) (QuoteJSONString key ++ 58 :: value ++ 125 :: rest)
    = POk [(key, v)] rest.
Proof.
  intros f key value v rest Hk Hv.
  rewrite parse_members_S. unfold QuoteJSONString.
  cbn [app skip_ws]. change (is_ws 34) with false. cbv iota.
  change (34 =? 34) with true. cbv iota.
  rewrite <- app_assoc. cbn [app].
  rewrite parse_chars_quote by assumption.
  cbn [skip_ws]. change (is_ws 58) with false. cbv iota.
  change (58 =? 58) with true. cbv iota.
  unfold jsstring, code_unit in *.
  rewrite Hv. cbn [skip_ws]. change (is_ws 125) with false. cbv iota.
  change (125 =? 44) with false. change (125 =? 125) with true. reflexivity.
Qed.

(** The members of a non-empty object with flat values. *)
Lemma parse_members_flat : forall entries kv rest f,
    Forall (fun kv => valid_string (fst kv) /\ flat (snd kv)) (kv :: entries) ->
    (length entries + total_width (kv :: entries) + 2 < f)%nat ->
    parse_members f
      (join_comma (map member_text (kv :: entries)) ++ 125 :: rest)
    = POk (map (fun kv => (fst kv, stored (snd kv))) (kv :: entries)) rest.
Proof.
  induction entries as [|kv' entries IH]; intros [k v] rest f Hall Hfuel;
    inversion Hall as [|? ? [Hk Hv] Hall']; subst; cbn [fst snd] in *.
  - cbn [length total_width snd] in Hfuel.
    destruct f as [|[|f]]; try lia.
    cbn [map join_comma fst snd]. unfold member_text. cbn [fst snd].
    rewrite <- app_assoc. cbn [app].
    apply parse_members_end; [assumption|].
    apply parse_value_flat; [assumption | apply after_number_brace | lia].
  - cbn [length total_width snd] in Hfuel.
    destruct f as [|[|f]]; try lia.
    change (join_comma (map member_text ((k, v) :: kv' :: entries)))
      with (member_text (k, v)
              ++ 44 :: join_comma (map member_text (kv' :: entries))).
    unfold member_text at 1. cbn [fst snd].
    rewrite <- !app_assoc. cbn [app].
    cbn [map fst snd].
    apply parse_members_cons; [assumption | |].
    + apply parse_value_flat; [assumption | apply after_number_comma | lia].
    + apply (IH kv' rest (S f) Hall').
      cbn [total_width]. lia.
Qed.

Lemma set_prop_fresh : forall acc k v,
    ~ In k (map fst acc) -> set_prop acc (k, v) = acc ++ [(k, v)].
Proof.
  induction acc as [|[k' v'] acc IH]; intros k v H; [reflexivity|].
  cbn [set_prop fst snd app]. cbn [map fst In] in H.
  destruct (jsstring_eqb k' k) eqn:E.
  - apply jsstring_eqb_eq in E. elim H. left. exact E.
  - rewrite IH; [reflexivity|]. intros Hin. apply H. right. exact Hin.
Qed.

Lemma fold_set_prop : forall kvs acc,
    NoDup (map fst kvs) ->
    (forall k, In k (map fst kvs) -> ~ In k (map fst acc)) ->
    fold_left set_prop kvs acc = acc ++ kvs.
Proof.
  induction kvs as [|[k v] kvs IH]; intros acc Hnd Hfresh.
  - cbn. rewrite app_nil_r. reflexivity.
  - cbn [fold_left]. cbn [map fst] in Hnd. inversion Hnd as [|? ? Hk Hnd']; subst.
    rewrite set_prop_fresh by (apply Hfresh; left; reflexivity).
    rewrite IH; [rewrite <- app_assoc; reflexivity | assumption |].
    intros k' Hin. rewrite map_app, in_app_iff. cbn [map fst In].
    intros [Hacc | [-> | []]].
    + apply (Hfresh k'); [right; exact Hin | exact Hacc].
    + contradiction.
Qed.

Lemma written_flat : forall props,
    Forall (fun kv => valid_string (fst kv)
                      /\ (snd kv = JUndefined \/ flat (snd kv))) props ->
    Forall (fun kv => valid_string (fst kv) /\ flat (snd kv)) (written props).
Proof.
  induction 1 as [|[k w] props [Hk Hw] _ IH]; [constructor|].
  cbn [written filter snd fst] in *. destruct Hw as [-> | Hw].
  - cbn. exact IH.
  - destruct (flat_serialized w Hw) as [_ ->]. cbn [negb].
    constructor; [split; assumption | exact IH].
Qed.

(** A storable object, as JSON.stringify writes it, is read back by
    JSON.parse as the stored object. *)
Lemma parse_stringify_object : forall props,
    storable props ->
    exists tail,
      JSON_stringify (JObj props) = Some (123 :: tail)
      /\ JSON_parse (123 :: tail) = Ok (JObj (stored_props props)).
Proof.
  intros props [Hall Hnd].
  unfold JSON_stringify. rewrite serialize_object.
  rewrite (member_texts_written props Hall).
  eexists. split; [reflexivity|].
  pose proof (written_flat props Hall) as Hw.
  unfold stored_props. destruct (written props) as [|kv entries] eqn:E.
  - reflexivity.
  - apply (JSON_parse_any_fuel _
             (S (length entries + total_width (kv :: entries) + 3))).
    rewrite parse_value_S. cbn [skip_ws]. change (is_ws 123) with false.
    cbv iota. change (123 =? 123) with true. cbv iota.
    assert (Hhead : exists t,
               join_comma (map member_text (kv :: entries)) ++ [125] = 34 :: t).
    { destruct entries; cbn [map join_comma]; unfold member_text at 1,
        QuoteJSONString; cbn [app]; eauto. }
    destruct Hhead as [t Ht].
    pose proof (parse_members_flat entries kv []
                  (length entries + total_width (kv :: entries) + 3)
                  Hw ltac:(lia)) as P.
    unfold jsstring, code_unit in *. rewrite Ht in *.
    cbn [skip_ws]. change (is_ws 34) with false. cbv iota.
    change (34 =? 125) with false. cbv iota. rewrite P.
    rewrite fold_set_prop.
    + reflexivity.
    + rewrite map_map. cbn [fst]. exact Hnd.
    + intros k _ [].
Qed.

Lemma format_stored_object : forall props,
    storable props ->
    FormatEmbedding_execute (JSON_stringify (JObj props))
    = Ok (JObj (stored_props props)).
Proof.
  intros props H. destruct (parse_stringify_object props H) as [tail [-> P]].
  cbn [FormatEmbedding_execute]. rewrite P. reflexivity.
Qed.

End Stored.

(* ================================================================= *)
(** ** The text of a number is a string of code units *)

Section NumberText.

Lemma digit_chars_valid : forall ds,
    Forall is_decimal_digit ds -> valid_string (digit_chars ds).
Proof.
  intros ds H. unfold valid_string, digit_chars. apply Forall_map.
  eapply Forall_impl; [|exact H].
  intros d Hd. unfold is_decimal_digit in Hd. unfold digit_char. lia.
Qed.

Lemma valid_string_app : forall a b,
    valid_string a -> valid_string b -> valid_string (a ++ b).
Proof. intros a b Ha Hb. apply Forall_app. split; assumption. Qed.

Lemma valid_string_cons : forall c s,
    0 <= c < 65536 -> valid_string s -> valid_string (c :: s).
Proof. intros c s Hc Hs. constructor; assumption. Qed.

Lemma Forall_take : forall (A : Type) (P : A -> Prop) n l,
    Forall P l -> Forall P (firstn n l).
Proof.
  intros A P. induction n as [|n IH]; intros l H; [constructor|].
  destruct H; cbn [firstn]; constructor; auto.
Qed.

Lemma Forall_drop : forall (A : Type) (P : A -> Prop) n l,
    Forall P l -> Forall P (skipn n l).
Proof.
  intros A P. induction n as [|n IH]; intros l H; [exact H|].
  destruct H; cbn [skipn]; [constructor | auto].
Qed.

Lemma layout_valid : forall ds n,
    Forall is_decimal_digit ds -> valid_string (layout_decimal ds n).
Proof.
  intros ds n H. unfold layout_decimal.
  destruct ((Z.of_nat (length ds) <=? n) && (n <=? 21)).
  { apply valid_string_app; apply digit_chars_valid;
      [assumption | apply zeros_digits]. }
  destruct ((0 <? n) && (n <=? 21)).
  { apply valid_string_app; [apply digit_chars_valid, Forall_take, H|].
    apply valid_string_app; [repeat constructor; lia|].
    apply digit_chars_valid, Forall_drop, H. }
  destruct ((-6 <? n) && (n <=? 0)).
  { apply valid_string_app; [repeat constructor; lia|].
    apply valid_string_app; apply digit_chars_valid;
      [apply zeros_digits | assumption]. }
  assert (He : valid_string
                 ([101; if 0 <=? n - 1 then 43 else 45]
                    ++ digit_chars (decimal_digits (Z.abs (n - 1))))).
  { apply valid_string_app.
    - destruct (0 <=? n - 1); repeat constructor; lia.
    - apply digit_chars_valid.
      apply (decimal_digits_spec (Z.abs (n - 1))). lia. }
  assert (Hd : forall d, is_decimal_digit d -> 0 <= digit_char d < 65536).
  { intros d Hd. unfold is_decimal_digit in Hd. unfold digit_char. lia. }
  destruct H as [|d ds Hd1 Hds]; [exact He|].
  destruct ds as [|d2 ds'].
  - apply valid_string_cons; [apply Hd; assumption | exact He].
  - apply valid_string_cons; [apply Hd; assumption|].
    apply valid_string_cons; [lia|].
    apply valid_string_app; [apply digit_chars_valid; assumption | exact He].
Qed.

Lemma NumberToString_valid : forall x,
    Num.valid x = true -> valid_string (NumberToString x).
Proof.
  intros [s|[|]| |sign m e] Hv; try apply valid_js.
  cbn [NumberToString].
  pose proof (shortest_decimal_reads_as m e Hv) as [Hs _].
  destruct (shortest_decimal m e) as [s p]. cbn [fst] in Hs.
  assert (L : valid_string
                (layout_decimal (decimal_digits s)
                   (p + Z.of_nat (length (decimal_digits s))))).
  { apply layout_valid. apply (decimal_digits_spec s). lia. }
  destruct sign; [apply valid_string_cons; [lia | exact L] | exact L].
Qed.

End NumberText.

(* ================================================================= *)
(** ** What is stored and what is read back *)

Section Pipeline.

Lemma written_keys : forall props k,
    In k (map fst (written props)) -> In k (map fst props).
Proof.
  induction props as [|[k' v] props IH]; intros k H; [exact H|].
  cbn [written filter snd] in H. cbn [map fst In].
  destruct (negb (is_undefined v)).
  - cbn [map fst In] in H. destruct H as [H | H]; [left; exact H|].
    right. apply IH. exact H.
  - right. apply IH. exact H.
Qed.

Lemma NoDup_written : forall props,
    NoDup (map fst props) -> NoDup (map fst (written props)).
Proof.
  induction props as [|[k v] props IH]; intros H; [constructor|].
  cbn [map fst] in H. inversion H as [|? ? Hk Hnd]; subst.
  cbn [written filter snd]. destruct (negb (is_undefined v)).
  - cbn [map fst]. constructor; [|apply IH; exact Hnd].
    intros Hin. apply Hk. apply written_keys. exact Hin.
  - apply IH. exact Hnd.
Qed.

Lemma embedding_keys_distinct :
  NoDup [ js "id"; js "input"; js "embedding"; js "formatted"; js "model";
          js "prompt_tokens"; js "total_tokens" ].
Proof.
  repeat constructor; cbn [In]; intros H;
    repeat (destruct H as [H | H]; [discriminate H|]); exact H.
Qed.

(** The object literal of generateEmbedding can be stored as soon as the
    values it took from the provider are flat or undefined. *)
Lemma embedding_object_storable : forall id_text text embedding model_name
                                         prompt total,
    valid_string id_text -> valid_string text ->
    (embedding = JUndefined \/ flat embedding) ->
    (model_name = JUndefined \/ flat model_name) ->
    (prompt = JUndefined \/ flat prompt) ->
    (total = JUndefined \/ flat total) ->
    storable [ (js "id", JStr id_text);
               (js "input", JStr text);
               (js "embedding", embedding);
               (js "formatted", JStr (js "Embedding Object"));
               (js "model", model_name);
               (js "prompt_tokens", prompt);
               (js "total_tokens", total) ].
Proof.
  intros id_text text emb mo p t Hid Htext He Hm Hp Ht. split.
  - repeat (apply Forall_cons;
            [split; [apply valid_js | cbn [snd]; auto using flat_str, valid_js]|]).
    constructor.
  - apply NoDup_written. exact embedding_keys_distinct.
Qed.

Lemma usage_figures_read : forall props prompt total,
    usage_figures props prompt total ->
    exists p t,
      get_prop_opt (field (js "usage") props) (js "prompt_tokens") = Ok p
      /\ get_prop_opt (field (js "usage") props) (js "total_tokens") = Ok t
      /\ or_else p (JNum Num.pzero) = prompt
      /\ or_else t (JNum Num.pzero) = total.
Proof.
  intros props prompt total H.
  assert (K : forall v, figure_kept v -> or_else v (JNum Num.pzero) = v).
  { intros v [T | ->]; unfold or_else; [rewrite T|]; reflexivity. }
  destruct H as [Hnone | usage prompt total Hu Hp Kp Ht Kt].
  - exists JUndefined, JUndefined. unfold field. rewrite Hnone.
    repeat split.
  - exists prompt, total. unfold field at 1 2. rewrite Hu.
    cbn [get_prop_opt]. rewrite !get_prop_object. unfold field.
    rewrite Hp, Ht. repeat split; auto.
Qed.

(** What generateEmbedding returns for an answer of the expected shape. *)
Lemma generateEmbedding_answer :
  forall text model fetch resp props entry rest prompt total,
    fetch (embeddings_request text model) = Ok resp ->
    status resp = 200 ->
    body resp = JObj props ->
    lookup (js "data") props = Some (JArr (JObj entry :: rest)) ->
    usage_figures props prompt total ->
    generateEmbedding text model fetch
    = Ok (embedding_object (ToString (field (js "index") entry)) text
            (field (js "embedding") entry) (field (js "model") props)
            prompt total).
Proof.
  intros text model fetch resp props entry rest prompt total
         Hf Hs Hb Hd Hu.
  rewrite (generateEmbedding_entry text model fetch resp props Hf Hb
             entry rest Hs Hd).
  destruct (usage_figures_read props prompt total Hu)
    as (p & t & -> & -> & <- & <-).
  reflexivity.
Qed.

Lemma valid_number_flat : forall x, Num.valid x = true -> flat (JNum x).
Proof. intros x H. constructor. exact H. Qed.

End Pipeline.

(** FormatEmbedding reads a stored object back: for every object whose keys
    are strings, none written twice, and whose values are null, booleans,
    numbers, strings, arrays of numbers or undefined, formatting the text
    that JSON.stringify writes gives the object again, without the
    properties that were undefined, with NaN and the infinities as null and
    with -0 as 0. *)
Theorem FormatEmbedding_reads_stored_object :
  forall props : list (jsstring * jsval),
    storable props ->
    FormatEmbedding_execute (JSON_stringify (JObj props))
    = Ok (JObj (stored_props props)).
Proof. exact format_stored_object. Qed.

Lemma FormatEmbedding_reads_stored_object_witness :
  FormatEmbedding_execute (JSON_stringify (JObj odd_object))
  = Ok (JObj [ (js "id", JStr (js "7"));
               (js "embedding",
                 JArr [JNull; JNum Num.pzero; JNum (tenths 1)]) ]).
Proof.
  apply (FormatEmbedding_reads_stored_object odd_object).
  split.
  - apply Forall_cons; [split; [apply valid_js | right; apply flat_str, valid_js]|].
    apply Forall_cons;
      [split; [apply valid_js
              | right; apply (flat_nums [Num.nan; Num.nzero; tenths 1]);
                repeat constructor]|].
    apply Forall_cons; [split; [apply valid_js | left; reflexivity]|].
    constructor.
  - repeat constructor; cbn [In]; intros H;
      repeat (destruct H as [H | H]; [discriminate H|]); exact H.
Defined.

(** The request of generateEmbedding: the outcome depends on the fetch
    collaborator only through its answer to one POST request to the
    embeddings URL with a JSON content type, and the body of that request is
    JSON that reads back as the object with exactly the text as input and the
    model as model, whatever characters the two strings hold. *)
Theorem generateEmbedding_request :
  forall text model : jsstring,
    valid_string text -> valid_string model ->
    (forall fetch1 fetch2 : fetcher,
        fetch1 (embeddings_request text model)
        = fetch2 (embeddings_request text model) ->
        generateEmbedding text model fetch1
        = generateEmbedding text model fetch2)
    /\ req_method (embeddings_request text model) = js "POST"
    /\ req_url (embeddings_request text model)
       = js "https://api.openai.com/v1/embeddings"
    /\ req_headers (embeddings_request text model)
       = [ (js "Content-Type", js "application/json") ]
    /\ exists sent,
         req_body (embeddings_request text model) = Some sent
         /\ JSON_parse sent
            = Ok (JObj [ (js "input", JStr text); (js "model", JStr model) ]).
Proof.
  intros text model Ht Hm.
  split; [| split; [| split; [| split]]]; try reflexivity.
  - intros fetch1 fetch2 H. unfold generateEmbedding. rewrite H. reflexivity.
  - assert (S : storable [ (js "input", JStr text); (js "model", JStr model) ]).
    { split.
      - repeat (apply Forall_cons;
                [split; [apply valid_js | right; apply flat_str; assumption]|]).
        constructor.
      - repeat constructor; cbn [In]; intros H;
          repeat (destruct H as [H | H]; [discriminate H|]); exact H. }
    destruct (parse_stringify_object _ S) as [tail [E P]].
    exists (123 :: tail). split; [exact E | exact P].
Qed.

Lemma generateEmbedding_request_witness :
  exists sent,
    req_body (embeddings_request (js "hello world") default_model) = Some sent
    /\ JSON_parse sent
       = Ok (JObj [ (js "input", JStr (js "hello world"));
                    (js "model", JStr default_model) ]).
Proof.
  apply (generateEmbedding_request (js "hello world") default_model).
  - apply valid_js.
  - apply valid_js.
Defined.

(** The two formulas compose: for a provider answer of the expected shape
    (status 200, a first result with a number as index and an array of
    numbers as vector, a string as model, numbers as usage figures) and any
    text, GenerateEmbedding returns a string, and FormatEmbedding applied to
    that string returns the seven-property record: the printed index as id,
    the text, the vector with the same length, the label, the model and the
    usage figures, where NaN and the infinities have become null and -0 has
    become 0. *)
Theorem GenerateEmbedding_then_FormatEmbedding :
  forall (text : jsstring) (model : option jsstring) (fetch : fetcher)
         (resp : response) (props entry : list (jsstring * jsval))
         (rest : list jsval) (index : number) (vector : list number)
         (model_name : jsstring) (prompt total : number),
    valid_string text ->
    fetch (embeddings_request text
             match model with Some m => m | None => default_model end)
    = Ok resp ->
    status resp = 200 ->
    body resp = JObj props ->
    lookup (js "data") props = Some (JArr (JObj entry :: rest)) ->
    lookup (js "index") entry = Some (JNum index) ->
    Num.valid index = true ->
    lookup (js "embedding") entry = Some (JArr (map JNum vector)) ->
    Forall (fun x => Num.valid x = true) vector ->
    lookup (js "model") props = Some (JStr model_name) ->
    valid_string model_name ->
    usage_figures props (JNum prompt) (JNum total) ->
    Num.valid prompt = true -> Num.valid total = true ->
    exists stored_text,
      GenerateEmbedding_execute text model fetch = Ok (Some stored_text)
      /\ FormatEmbedding_execute (Some stored_text)
         = Ok (JObj [ (js "id", JStr (NumberToString index));
                      (js "input", JStr text);
                      (js "embedding", JArr (map stored_number vector));
                      (js "formatted", JStr (js "Embedding Object"));
                      (js "model", JStr model_name);
                      (js "prompt_tokens", stored_number prompt);
                      (js "total_tokens", stored_number total) ]).
Proof.
  intros text model fetch resp props entry rest index vector model_name
         prompt total Htext Hf Hs Hb Hd Hi Vi He Ve Hm Vm Hu Vp Vt.
  unfold GenerateEmbedding_execute.
  rewrite (generateEmbedding_answer _ _ _ _ _ _ _ _ _ Hf Hs Hb Hd Hu).
  cbn [bind]. unfold field. rewrite Hi, He, Hm. cbn [ToString].
  unfold embedding_object.
  destruct (parse_stringify_object _
              (embedding_object_storable (NumberToString index) text
                 (JArr (map JNum vector)) (JStr model_name)
                 (JNum prompt) (JNum total)
                 (NumberToString_valid index Vi) Htext
                 (or_intror (flat_nums vector Ve))
                 (or_intror (flat_str model_name Vm))
                 (or_intror (flat_num prompt Vp))
                 (or_intror (flat_num total Vt))))
    as [tail [E P]].
  exists (123 :: tail). split; [rewrite E; reflexivity|].
  cbn [FormatEmbedding_execute]. rewrite P.
  unfold stored_props, written.
  cbn [filter map fst snd is_undefined negb stored].
  rewrite map_map. reflexivity.
Qed.

Lemma GenerateEmbedding_then_FormatEmbedding_witness :
  exists stored_text,
    GenerateEmbedding_execute (js "hello world") None sample_fetch
    = Ok (Some stored_text)
    /\ FormatEmbedding_execute (Some stored_text)
       = Ok (record_value sample_record).
Proof.
  apply (GenerateEmbedding_then_FormatEmbedding
           (js "hello world") None sample_fetch
           {| status := 200; body := JObj sample_body |} sample_body
           [ (js "index", JNum (Num.of_Z 0));
             (js "embedding",
               JArr [JNum (tenths 1); JNum (tenths 2); JNum (tenths 3)]) ]
           [] (Num.of_Z 0) [tenths 1; tenths 2; tenths 3]
           (js "text-embedding-3-small") (Num.of_Z 2) (Num.of_Z 2)).
  - apply valid_js.
  - reflexivity.
  - reflexivity.
  - reflexivity.
  - vm_compute. reflexivity.
  - vm_compute. reflexivity.
  - vm_compute. reflexivity.
  - vm_compute. reflexivity.
  - repeat constructor.
  - vm_compute. reflexivity.
  - apply valid_js.
  - apply (usage_present sample_body
             [ (js "prompt_tokens", JNum (Num.of_Z 2));
               (js "total_tokens", JNum (Num.of_Z 2)) ]).
    + vm_compute. reflexivity.
    + vm_compute. reflexivity.
    + left. vm_compute. reflexivity.
    + vm_compute. reflexivity.
    + left. vm_compute. reflexivity.
  - vm_compute. reflexivity.
  - vm_compute. reflexivity.
Defined.

(** A missing vector is not noticed: when the first result has no embedding
    property, GenerateEmbedding still returns a string, the string has no
    embedding member, and FormatEmbedding applied to it returns an object
    with six properties and no embedding at all. *)
Theorem GenerateEmbedding_without_vector :
  forall (text : jsstring) (model : option jsstring) (fetch : fetcher)
         (resp : response) (props entry : list (jsstring * jsval))
         (rest : list jsval) (index : number) (model_name : jsstring),
    valid_string text ->
    fetch (embeddings_request text
             match model with Some m => m | None => default_model end)
    = Ok resp ->
    status resp = 200 ->
    body resp = JObj props ->
    lookup (js "data") props = Some (JArr (JObj entry :: rest)) ->
    lookup (js "index") entry = Some (JNum index) ->
    Num.valid index = true ->
    lookup (js "embedding") entry = None ->
    lookup (js "model") props = Some (JStr model_name) ->
    valid_string model_name ->
    lookup (js "usage") props = None ->
    exists stored_text,
      GenerateEmbedding_execute text model fetch = Ok (Some stored_text)
      /\ FormatEmbedding_execute (Some stored_text)
         = Ok (JObj [ (js "id", JStr (NumberToString index));
                      (js "input", JStr text);
                      (js "formatted", JStr (js "Embedding Object"));
                      (js "model", JStr model_name);
                      (js "prompt_tokens", JNum Num.pzero);
                      (js "total_tokens", JNum Num.pzero) ]).
Proof.
  intros text model fetch resp props entry rest index model_name
         Htext Hf Hs Hb Hd Hi Vi He Hm Vm Hu.
  unfold GenerateEmbedding_execute.
  rewrite (generateEmbedding_answer _ _ _ _ _ _ _ _ _ Hf Hs Hb Hd
             (usage_absent props Hu)).
  cbn [bind]. unfold field. rewrite Hi, He, Hm. cbn [ToString].
  unfold embedding_object.
  destruct (parse_stringify_object _
              (embedding_object_storable (NumberToString index) text
                 JUndefined (JStr model_name)
                 (JNum Num.pzero) (JNum Num.pzero)
                 (NumberToString_valid index Vi) Htext
                 (or_introl eq_refl)
                 (or_intror (flat_str model_name Vm))
                 (or_intror (flat_num Num.pzero eq_refl))
                 (or_intror (flat_num Num.pzero eq_refl))))
    as [tail [E P]].
  exists (123 :: tail). split; [rewrite E; reflexivity|].
  cbn [FormatEmbedding_execute]. rewrite P. reflexivity.
Qed.

Lemma GenerateEmbedding_without_vector_witness :
  exists stored_text,
    GenerateEmbedding_execute (js "hello world") None no_vector_fetch
    = Ok (Some stored_text)
    /\ FormatEmbedding_execute (Some stored_text)
       = Ok (JObj [ (js "id", JStr (js "0"));
                    (js "input", JStr (js "hello world"));
                    (js "formatted", JStr (js "Embedding Object"));
                    (js "model", JStr (js "text-embedding-3-small"));
                    (js "prompt_tokens", JNum Num.pzero);
                    (js "total_tokens", JNum Num.pzero) ]).
Proof.
  apply (GenerateEmbedding_without_vector
           (js "hello world") None no_vector_fetch
           {| status := 200; body := JObj no_vector_body |} no_vector_body
           [ (js "index", JNum (Num.of_Z 0)) ] [] (Num.of_Z 0)
           (js "text-embedding-3-small")).
  - apply valid_js.
  - reflexivity.
  - reflexivity.
  - reflexivity.
  - vm_compute. reflexivity.
  - vm_compute. reflexivity.
  - vm_compute. reflexivity.
  - vm_compute. reflexivity.
  - vm_compute. reflexivity.
  - apply valid_js.
  - vm_compute. reflexivity.
Defined.

(* ================================================================= *)
(** ** FormatEmbedding: white space, bare values, and no undefined *)

Section FormatMore.

Lemma FormatEmbedding_nonempty : forall text,
    text <> [] ->
    FormatEmbedding_execute (Some text)
    = match JSON_parse text with
      | Ok v => Ok v
      | Throw _ => Ok invalid_record
      end.
Proof. intros [|c text] H; [congruence | reflexivity]. Qed.

Lemma skip_ws_blank : forall ws s, blank ws -> skip_ws (ws ++ s) = skip_ws s.
Proof.
  intros ws s H. induction H as [|c ws Hc _ IH]; [reflexivity|].
  cbn [app skip_ws]. rewrite Hc. exact IH.
Qed.

Lemma parse_value_blank : forall f ws s,
    blank ws -> parse_value f (ws ++ s) = parse_value f s.
Proof.
  intros [|f] ws s H; [reflexivity|].
  rewrite !parse_value_S, (skip_ws_blank ws s H). reflexivity.
Qed.

Lemma JSON_parse_blank : forall ws text,
    blank ws -> JSON_parse (ws ++ text) = JSON_parse text.
Proof.
  intros ws text H. unfold JSON_parse.
  rewrite (parse_value_blank _ ws text H).
  rewrite (parse_value_fuel_le text (2 * length text + 1)
             (2 * length (ws ++ text) + 1)).
  - reflexivity.
  - rewrite length_app. lia.
  - apply parse_value_fuel.
Qed.

Lemma set_prop_defined : forall acc kv,
    defined_props acc -> defined_value (snd kv) ->
    defined_props (set_prop acc kv).
Proof.
  induction acc as [|[k v] acc IH]; intros kv Ha Hv.
  - repeat constructor. exact Hv.
  - inversion Ha as [|? ? Hk Ha']; subst. cbn [set_prop].
    destruct (jsstring_eqb k (fst kv)); constructor;
      cbn [snd] in *; auto.
    apply IH; assumption.
Qed.

Lemma fold_set_prop_defined : forall kvs acc,
    defined_props acc -> defined_props kvs ->
    defined_props (fold_left set_prop kvs acc).
Proof.
  induction kvs as [|kv kvs IH]; intros acc Ha Hk; [exact Ha|].
  inversion Hk; subst. cbn [fold_left]. apply IH; [|assumption].
  apply set_prop_defined; assumption.
Qed.

Lemma defined_array : forall l, defined_values l -> defined_value (JArr l).
Proof.
  intros l H. cbn [defined_value]. induction H; [exact I | split; assumption].
Qed.

Lemma defined_object : forall l, defined_props l -> defined_value (JObj l).
Proof.
  intros l H. cbn [defined_value].
  induction H as [|[k w] l Hw _ IH]; [exact I | split; assumption].
Qed.

(** What the parser builds holds no undefined. *)
Lemma parse_defined : forall fuel,
    (forall s v r, parse_value fuel s = POk v r -> defined_value v)
    /\ (forall s vs r, parse_elements fuel s = POk vs r -> defined_values vs)
    /\ (forall s kvs r, parse_members fuel s = POk kvs r -> defined_props kvs).
Proof.
  induction fuel as [|fuel [IHv [IHe IHm]]];
    (split; [|split]); intros s v r H; try discriminate.
  - rewrite parse_value_S in H. unfold parse_literal in H.
    repeat (break_in H; try discriminate);
      injection H as <- <-; try exact I.
    + apply defined_object, fold_set_prop_defined; [constructor|].
      eapply IHm; eassumption.
    + apply defined_array. eapply IHe; eassumption.
  - rewrite parse_elements_S in H.
    repeat (break_in H; try discriminate); injection H as <- <-.
    + constructor; [eapply IHv | eapply IHe]; eassumption.
    + constructor; [eapply IHv; eassumption | constructor].
  - rewrite parse_members_S in H.
    repeat (break_in H; try discriminate); injection H as <- <-.
    + constructor; [cbn [snd]; eapply IHv | eapply IHm]; eassumption.
    + constructor; [cbn [snd]; eapply IHv; eassumption | constructor].
Qed.

End FormatMore.

(** A text of white space only is not the empty text: FormatEmbedding
    answers it with the record labelled Invalid embedding record JSON, not
    with the one labelled No data. *)
Theorem FormatEmbedding_blank_text : forall text : jsstring,
    text <> [] -> blank text ->
    FormatEmbedding_execute (Some text) = Ok invalid_record
    /\ FormatEmbedding_execute (Some text) <> FormatEmbedding_execute (Some []).
Proof.
  intros text Hne Hb.
  assert (E : FormatEmbedding_execute (Some text) = Ok invalid_record).
  { etransitivity; [apply FormatEmbedding_nonempty; exact Hne|].
    unfold JSON_parse. replace (2 * length text + 1)%nat
      with (S (2 * length text)) by lia.
    rewrite parse_value_S.
    pose proof (skip_ws_blank text [] Hb) as S. rewrite app_nil_r in S.
    rewrite S. reflexivity. }
  split; [exact E|]. rewrite E. discriminate.
Qed.

Lemma FormatEmbedding_blank_text_witness :
  FormatEmbedding_execute (Some (js "  ")) = Ok invalid_record
  /\ FormatEmbedding_execute (Some (js "  "))
     <> FormatEmbedding_execute (Some []).
Proof.
  apply (FormatEmbedding_blank_text (js "  ")).
  - discriminate.
  - repeat constructor.
Defined.

(** White space in front of the stored text is ignored: with it or without
    it FormatEmbedding gives the same answer, for every text that is not
    empty. *)
Theorem FormatEmbedding_leading_space : forall ws text : jsstring,
    blank ws -> text <> [] ->
    FormatEmbedding_execute (Some (ws ++ text))
    = FormatEmbedding_execute (Some text).
Proof.
  intros ws text Hb Hne.
  etransitivity; [apply FormatEmbedding_nonempty|].
  - destruct ws; [exact Hne | discriminate].
  - rewrite (JSON_parse_blank ws text Hb). symmetry.
    apply FormatEmbedding_nonempty. exact Hne.
Qed.

Lemma FormatEmbedding_leading_space_witness :
  FormatEmbedding_execute (Some (js " " ++ partial_record_text))
  = FormatEmbedding_execute (Some partial_record_text).
Proof.
  apply (FormatEmbedding_leading_space (js " ") partial_record_text).
  - repeat constructor.
  - discriminate.
Defined.

(** A stored text that is a bare JSON number or a bare JSON string is
    returned as that number or that string: not as a record, and not as the
    invalid record. *)
Theorem FormatEmbedding_bare_values :
  (forall x : number,
      finite_number x ->
      FormatEmbedding_execute (Some (NumberToString x))
      = Ok (JNum (positive_zero x)))
  /\ (forall s : jsstring,
      valid_string s ->
      FormatEmbedding_execute (Some (QuoteJSONString s)) = Ok (JStr s)).
Proof.
  split.
  - intros x Hx.
    destruct (NumberToString_head x Hx) as [c [t [E _]]].
    etransitivity;
      [apply FormatEmbedding_nonempty; rewrite E; discriminate|].
    pose proof (parse_value_number 0 x [] Hx I) as P.
    rewrite app_nil_r in P.
    rewrite (JSON_parse_any_fuel _ _ _ P). reflexivity.
  - intros s Hs.
    etransitivity; [apply FormatEmbedding_nonempty; discriminate|].
    pose proof (parse_value_string 0 s [] Hs) as P.
    rewrite app_nil_r in P.
    rewrite (JSON_parse_any_fuel _ _ _ P). reflexivity.
Qed.

Lemma FormatEmbedding_bare_values_witness :
  FormatEmbedding_execute (Some (NumberToString (tenths 1)))
  = Ok (JNum (tenths 1))
  /\ FormatEmbedding_execute (Some (QuoteJSONString (js "hi")))
     = Ok (JStr (js "hi")).
Proof.
  split.
  - apply (proj1 FormatEmbedding_bare_values (tenths 1)).
    split; reflexivity.
  - apply (proj2 FormatEmbedding_bare_values (js "hi")).
    apply valid_js.
Defined.

(** FormatEmbedding never returns undefined, and nothing inside what it
    returns is undefined: no element of an array and no property of an
    object, at any depth. *)
Theorem FormatEmbedding_no_undefined :
  forall (input : option jsstring) (v : jsval),
    FormatEmbedding_execute input = Ok v -> defined_value v.
Proof.
  intros input v H.
  assert (S : forall label, defined_value (fallback_record label))
    by (intros label; cbn; tauto).
  destruct input as [[|c text]|]; cbn [FormatEmbedding_execute] in H;
    try (injection H as <-; apply S).
  unfold JSON_parse in H.
  destruct (parse_value (2 * length (c :: text) + 1) (c :: text))
    as [w r| |] eqn:P; try (injection H as <-; apply S).
  destruct (skip_ws r); injection H as <-; [|apply S].
  eapply (proj1 (parse_defined _)). exact P.
Qed.

Lemma FormatEmbedding_no_undefined_witness :
  defined_value partial_record.
Proof.
  apply (FormatEmbedding_no_undefined (Some partial_record_text)).
  vm_compute. reflexivity.
Defined.
